(** * port_scanner.py: a shallow embedding and its properties

    The program probes a range of TCP ports with [scan_port], fans the probes
    out over a [ThreadPoolExecutor] in [scan_ports], prints the open ports in
    [display_results] and wires everything together in [main].

    The Python code is effectful: it talks to the socket layer and prints.
    Both effects are recorded in an event log that is threaded through a small
    state-and-exception monad [M].  What the operating system and the Python
    library answer is not decided by the program; it is read from a [world]. *)

From Stdlib Require Import ZArith List String Ascii Bool Lia QArith.
From Stdlib Require Import Permutation Sorted DecimalString.
Import ListNotations.

Local Open Scope Z_scope.
Local Open Scope string_scope.
Local Open Scope list_scope.

(** String concatenation, as in Python's f-strings. *)
Infix "^^" := String.append (at level 60, right associativity).

(** ** Python exceptions *)

(** Only the class of an exception matters for [except] clauses and only
    [str(e)] matters for what [main] prints. [socket.error] is an alias of
    [OSError]; [socket.gaierror] and [socket.timeout] are subclasses of it. *)
Inductive exn_class : Type :=
  | OSError
  | GaiError
  | SocketTimeout
  | ValueError
  | OverflowError.

Record exn : Type := Exn { exn_cls : exn_class; exn_str : string }.

(** [except socket.error] *)
Definition is_socket_error (e : exn) : bool :=
  match exn_cls e with
  | OSError | GaiError | SocketTimeout => true
  | _ => false
  end.

(** [except ValueError] *)
Definition is_ValueError (e : exn) : bool :=
  match exn_cls e with
  | ValueError => true
  | _ => false
  end.

(** [except Exception] *)
Definition is_Exception (_ : exn) : bool := true.

(** ** Observable events *)

Inductive event : Type :=
  | EvSocket                              (* socket.socket(AF_INET, SOCK_STREAM) gave a socket *)
  | EvSetTimeout (t : Q)                  (* sock.settimeout(t) *)
  | EvConnectEx (ip : string) (port : Z)  (* sock.connect_ex((ip, port)) *)
  | EvClose                               (* sock.close() *)
  | EvPrint (line : string).              (* print(line) *)

(** ** The monad *)

Inductive result (A : Type) : Type :=
  | Return (a : A)
  | Raise (e : exn).
Arguments Return {A} a.
Arguments Raise {A} e.

Definition M (A : Type) : Type := list event -> result A * list event.

Definition ret {A} (a : A) : M A := fun log => (Return a, log).

Definition raise {A} (e : exn) : M A := fun log => (Raise e, log).

Definition bind {A B} (m : M A) (k : A -> M B) : M B :=
  fun log =>
    match m log with
    | (Return a, log') => k a log'
    | (Raise e, log') => (Raise e, log')
    end.

Definition emit (ev : event) : M unit := fun log => (Return tt, log ++ [ev]).

(** [try: body except <classes>: handler]; the effects of [body] up to the
    point where it raised stay in the log. *)
Definition try_except {A} (body : M A) (catches : exn -> bool)
    (handler : exn -> M A) : M A :=
  fun log =>
    match body log with
    | (Return a, log') => (Return a, log')
    | (Raise e, log') =>
        if catches e then handler e log' else (Raise e, log')
    end.

Notation "x <- m ;; k" := (bind m (fun x => k))
  (at level 61, m at next level, right associativity).
Notation "m ;;; k" := (bind m (fun _ => k))
  (at level 61, right associativity).

(** Running a computation from the empty log. *)
Definition value_of {A} (m : M A) : result A := fst (m []).
Definition log_of {A} (m : M A) : list event := snd (m []).

(** ** What the environment answers to one probe *)

(** One call of [scan_port] makes at most four library calls. [probe_env]
    fixes the answer of those that can fail:
    - [on_socket]: [None] when [socket.socket] returns a socket, [Some e]
      when it raises [e] (for instance [OSError] with [EMFILE]);
    - [on_settimeout]: [Some e] when [settimeout] raises [e] ([ValueError]
      for a negative timeout);
    - [on_connect_ex]: [inr code] when [connect_ex] returns the error
      indicator [code] (0 for success, otherwise the [errno] of the C-level
      connect), [inl e] when it raises [e] (address resolution problems,
      a port outside 0..65535). *)
Record probe_env : Type := {
  on_socket : option exn;
  on_settimeout : option exn;
  on_connect_ex : exn + Z
}.

Definition socket_socket (env : probe_env) : M unit :=
  match on_socket env with
  | None => emit EvSocket
  | Some e => raise e
  end.

Definition sock_settimeout (env : probe_env) (timeout : Q) : M unit :=
  emit (EvSetTimeout timeout) ;;;
  match on_settimeout env with
  | None => ret tt
  | Some e => raise e
  end.

Definition sock_connect_ex (env : probe_env) (ip : string) (port : Z) : M Z :=
  emit (EvConnectEx ip port) ;;;
  match on_connect_ex env with
  | inr code => ret code
  | inl e => raise e
  end.

Definition sock_close : M unit := emit EvClose.

(** ** scan_port *)

Definition outcome : Type := (Z * string)%type.

(** The default of the [timeout] parameter of [scan_port]. *)
Definition scan_port_default_timeout : Q := 1.

Definition scan_port (env : probe_env) (ip : string) (port : Z) (timeout : Q)
  : M outcome :=
  try_except
    (socket_socket env ;;;
     sock_settimeout env timeout ;;;
     result <- sock_connect_ex env ip port ;;
     sock_close ;;;
     if (result =? 0)%Z then ret (port, "Open") else ret (port, "Closed"))
    is_socket_error
    (fun _ => ret (port, "Error")).

(** ** Sorting by a key *)

(** [list.sort(key=...)] is a stable sort. The result of a stable sort is
    determined by its input, so it is modelled by the stable insertion sort
    below: an element is inserted before the first element whose key is not
    smaller. *)
Section SortBy.
Context {A : Type} (key : A -> Z).

Fixpoint insert_by (x : A) (l : list A) : list A :=
  match l with
  | [] => [x]
  | y :: l' =>
      if (key x <=? key y)%Z then x :: y :: l' else y :: insert_by x l'
  end.

Fixpoint sort_by (l : list A) : list A :=
  match l with
  | [] => []
  | x :: l' => insert_by x (sort_by l')
  end.

(** The orders the sorted list is compared in. *)
Definition key_le (a b : A) : Prop := (key a <= key b)%Z.
Definition key_lt (a b : A) : Prop := (key a < key b)%Z.
End SortBy.

(** [range(a, b)] *)
Definition range (a b : Z) : list Z :=
  map (fun i => a + Z.of_nat i) (seq 0 (Z.to_nat (b - a))).

(** ** The thread pool *)

(** A [ThreadPoolExecutor] with [max_workers] workers: submitted work items
    wait in a FIFO queue, a free worker takes the oldest one, and a running
    item finishes at a moment the program does not control. [pending] is the
    queue, [running] the items in flight and [completed] the finished items,
    oldest first, which is the order [as_completed] yields them in. *)
Record pool : Type := {
  pending : list Z;
  running : list Z;
  completed : list Z
}.

Definition submitted (ports : list Z) : pool :=
  {| pending := ports; running := []; completed := [] |}.

Definition can_start (max_workers : Z) (st : pool) : bool :=
  match pending st with
  | [] => false
  | _ :: _ => (Z.of_nat (List.length (running st)) <? max_workers)%Z
  end.

Definition start (st : pool) : pool :=
  match pending st with
  | [] => st
  | p :: q =>
      {| pending := q; running := running st ++ [p]; completed := completed st |}
  end.

Definition remove_nth {A} (i : nat) (l : list A) : list A :=
  firstn i l ++ skipn (S i) l.

Definition finish (i : nat) (st : pool) : pool :=
  match nth_error (running st) i with
  | None => st
  | Some p =>
      {| pending := pending st;
         running := remove_nth i (running st);
         completed := completed st ++ [p] |}
  end.

(** One scheduling step. The scheduler's [choice] decides between handing
    the next queued item to a free worker ([choice = 0], when a worker is
    free) and letting one of the items in flight finish. *)
Definition pool_step (max_workers : Z) (choice : nat) (st : pool) : pool :=
  match running st with
  | [] => if can_start max_workers st then start st else st
  | _ :: _ =>
      if can_start max_workers st && (choice =? 0)%nat then start st
      else finish (choice mod List.length (running st)) st
  end.

(** The pool after [n] steps, the [i]-th step following [sched i]. *)
Fixpoint pool_run (max_workers : Z) (sched : nat -> nat) (n : nat) (i : nat)
    (st : pool) : pool :=
  match n with
  | O => st
  | S n' => pool_run max_workers sched n' (S i) (pool_step max_workers (sched i) st)
  end.

(** Every item is started once and finished once: two steps per item. *)
Definition pool_final (max_workers : Z) (sched : nat -> nat) (ports : list Z)
  : pool :=
  pool_run max_workers sched (2 * List.length ports) 0 (submitted ports).

(** ** The world *)

Record world : Type := {
  (** whether [ipaddress.ip_address] accepts the string *)
  ip_literal : string -> bool;
  (** what the socket layer answers to the probe of an address and port *)
  probe_of : string -> Z -> probe_env;
  (** the scheduler's choices, step by step *)
  schedule : nat -> nat
}.

(** ** Futures *)

(** A finished future holds the value its call returned or the exception it
    raised; [future.result()] returns the one and re-raises the other. *)
Definition future (A : Type) : Type := result A.

Definition worker_run {A} (task : M A) : M (future A) :=
  fun log => let (r, log') := task log in (Return r, log').

Definition future_result {A} (f : future A) : M A :=
  match f with
  | Return a => ret a
  | Raise e => raise e
  end.

Fixpoint map_M {A B} (f : A -> M B) (l : list A) : M (list B) :=
  match l with
  | [] => ret []
  | x :: l' => y <- f x ;; ys <- map_M f l' ;; ret (y :: ys)
  end.

(** [ThreadPoolExecutor(max_workers=n)] raises [ValueError] unless [n > 0]. *)
Definition ThreadPoolExecutor (max_workers : Z) : M unit :=
  if (max_workers <=? 0)%Z
  then raise (Exn ValueError "max_workers must be greater than 0")
  else ret tt.

(** ** scan_ports *)

(** The default of the [max_threads] parameter of [scan_ports]. *)
Definition scan_ports_default_max_threads : Z := 100.

(** [for future in as_completed(futures): results.append(future.result())] *)
Fixpoint collect (futures : list (future outcome)) (results : list outcome)
  : M (list outcome) :=
  match futures with
  | [] => ret results
  | f :: rest => r <- future_result f ;; collect rest (results ++ [r])
  end.

(** The aggregation of lines 44 to 53: start from the empty list, append what
    the futures yield in completion order, sort by port. *)
Definition aggregate (futures : list (future outcome)) : M (list outcome) :=
  results <- collect futures [] ;;
  ret (sort_by fst results).

(** [executor.submit(scan_port, ip, port)]: the probe is submitted without a
    timeout argument, so it runs with the default one. The future holds what
    the probe returned or raised. *)
Definition submit (w : world) (ip : string) (port : Z) : M (future outcome) :=
  worker_run (scan_port (probe_of w ip port) ip port scan_port_default_timeout).

(** [as_completed(futures)] yields the futures in the order in which the
    pool completes them; a future is named by its port here. *)
Definition as_completed (max_workers : Z) (sched : nat -> nat) (ports : list Z)
  : list Z :=
  completed (pool_final max_workers sched ports).

(** The executor runs every submitted probe before the [with] block is left;
    the futures are listed in completion order, the order of the loop over
    [as_completed]. *)
Definition scan_ports (w : world) (ip : string) (start_port end_port : Z)
    (max_threads : Z) : M (list outcome) :=
  let ports := range start_port (end_port + 1) in
  ThreadPoolExecutor max_threads ;;;
  futures <- map_M (submit w ip) (as_completed max_threads (schedule w) ports) ;;
  aggregate futures.

(** ** Printing *)

Definition print (line : string) : M unit := emit (EvPrint line).

(** [str(n)] for an integer *)
Definition str_of_Z (n : Z) : string := NilZero.string_of_int (Z.to_int n).

Fixpoint spaces (n : nat) : string :=
  match n with
  | O => ""
  | S n' => String " " (spaces n')
  end.

(** The format specification [<10]: left-justified in a field of width 10. *)
Definition ljust (width : nat) (s : string) : string :=
  s ^^ spaces (width - String.length s).

Fixpoint str_mul (s : string) (n : nat) : string :=
  match n with
  | O => ""
  | S n' => s ^^ str_mul s n'
  end.

Definition table_row (port : Z) (status : string) : string :=
  ljust 10 (str_of_Z port) ^^ " " ^^ ljust 10 status.

Fixpoint for_each {A} (l : list A) (body : A -> M unit) : M unit :=
  match l with
  | [] => ret tt
  | x :: l' => body x ;;; for_each l' body
  end.

Definition table_header : string := ljust 10 "Port" ^^ " " ^^ ljust 10 "Status".

Definition table_rule : string := str_mul "-" 20.

Definition display_results (results : list outcome) : M unit :=
  print table_header ;;;
  print table_rule ;;;
  for_each results
    (fun '(port, status) =>
       if (status =? "Open")%string then print (table_row port status)
       else ret tt).

(** ** validate_ip and main *)

Definition ipaddress_ip_address (w : world) (ip : string) : M unit :=
  if ip_literal w ip then ret tt
  else raise (Exn ValueError
         ("'" ^^ ip ^^ "' does not appear to be an IPv4 or IPv6 address")).

Definition validate_ip (w : world) (ip : string) : M bool :=
  try_except
    (ipaddress_ip_address w ip ;;; ret true)
    is_ValueError
    (fun _ => ret false).

Definition newline : string := String (ascii_of_nat 10) "".

(** [result[1] == 'Open'] *)
Definition is_open (result : outcome) : bool := (snd result =? "Open")%string.

(** The lines [main] prints. *)
Definition msg_invalid_ip (ip : string) : string :=
  "Error: Invalid IP address '" ^^ ip ^^ "'".

Definition msg_invalid_range : string :=
  "Error: Invalid port range. Ports must be between 1 and 65535, and start_port <= end_port.".

Definition msg_scanning (ip : string) (start_port end_port : Z) : string :=
  "Scanning " ^^ ip ^^ " from port " ^^ str_of_Z start_port
  ^^ " to " ^^ str_of_Z end_port ^^ "...".

Definition msg_open_ports_found : string := newline ^^ "Open ports found:".

Definition msg_no_open_ports (start_port end_port : Z) : string :=
  newline ^^ "No open ports found in the range "
  ^^ str_of_Z start_port ^^ "-" ^^ str_of_Z end_port ^^ ".".

Definition msg_scan_error (e : exn) : string :=
  "Error during scanning: " ^^ exn_str e.

(** [main] after [parser.parse_args()]: the arguments are the parsed [ip],
    [start_port], [end_port] and [--threads]. An early [return] is the end of
    the branch it sits in. *)
Definition main (w : world) (ip : string) (start_port end_port : Z)
    (max_threads : Z) : M unit :=
  valid <- validate_ip w ip ;;
  if negb valid then
    print (msg_invalid_ip ip)
  else if (start_port <? 1)%Z || (end_port >? 65535)%Z || (start_port >? end_port)%Z then
    print msg_invalid_range
  else
    print (msg_scanning ip start_port end_port) ;;;
    try_except
      (results <- scan_ports w ip start_port end_port max_threads ;;
       let open_ports := filter is_open results in
       match open_ports with
       | _ :: _ =>
           print msg_open_ports_found ;;;
           display_results open_ports
       | [] =>
           print (msg_no_open_ports start_port end_port)
       end)
      is_Exception
      (fun e => print (msg_scan_error e)).

(** The default of [--threads]. *)
Definition argparse_default_threads : Z := 100.

(** The exit status of the interpreter: 0 when the script runs to its end,
    1 when an exception is left unhandled. *)
Definition exit_status {A} (r : result A) : Z :=
  match r with
  | Return _ => 0
  | Raise _ => 1
  end.

(** ** Concrete environments *)

(** How CPython on Linux reports the network conditions the probes meet.
    [connect_ex] returns the error indicator of the C-level connect instead
    of raising: [ECONNREFUSED] for a refusal, [ENETUNREACH] for an
    unreachable network, and [EWOULDBLOCK] when the socket's timeout expires
    before the handshake completes. It raises for problems found before the
    C-level call, such as an address that does not resolve in the socket's
    family. [socket.socket] raises [OSError] when the process has no file
    descriptor left. *)
Module Net.
Definition ECONNREFUSED : Z := 111.
Definition ENETUNREACH : Z := 101.
Definition EWOULDBLOCK : Z := 11.

Definition answers (code : Z) : probe_env :=
  {| on_socket := None; on_settimeout := None; on_connect_ex := inr code |}.

Definition listening : probe_env := answers 0.
Definition refused : probe_env := answers ECONNREFUSED.
Definition unreachable : probe_env := answers ENETUNREACH.
Definition timed_out : probe_env := answers EWOULDBLOCK.

Definition no_descriptors : probe_env :=
  {| on_socket := Some (Exn OSError "[Errno 24] Too many open files");
     on_settimeout := None;
     on_connect_ex := inr 0 |}.

Definition wrong_family : probe_env :=
  {| on_socket := None;
     on_settimeout := None;
     on_connect_ex :=
       inl (Exn GaiError "[Errno -9] Address family for hostname not supported") |}.

(** A port outside 0..65535 makes [connect_ex] raise [OverflowError], which
    is not a [socket.error]. *)
Definition bad_port : probe_env :=
  {| on_socket := None;
     on_settimeout := None;
     on_connect_ex :=
       inl (Exn OverflowError "connect_ex(): port must be 0-65535.") |}.
End Net.

(** A small laboratory: the loopback host listens on port 7001 only, the
    address 10.255.255.1 is a black hole, and the IPv6 loopback does not
    resolve in [AF_INET]. *)
Module Lab.
Fixpoint split_dots (s : string) : list string :=
  match s with
  | EmptyString => [EmptyString]
  | String c s' =>
      if Ascii.eqb c "."%char then EmptyString :: split_dots s'
      else match split_dots s' with
           | h :: t => String c h :: t
           | [] => [String c EmptyString]
           end
  end.

Definition digit_of (c : ascii) : option nat :=
  let n := nat_of_ascii c in
  if ((48 <=? n) && (n <=? 57))%nat then Some (n - 48)%nat else None.

Fixpoint decimal (s : string) (acc : nat) : option nat :=
  match s with
  | EmptyString => Some acc
  | String c s' =>
      match digit_of c with
      | Some d => decimal s' (10 * acc + d)%nat
      | None => None
      end
  end.

Definition octet (s : string) : bool :=
  match s with
  | EmptyString => false
  | String c s' =>
      ((String.length s <=? 3)%nat)
      && (negb (Ascii.eqb c "0"%char) || (String.length s =? 1)%nat)
      && match decimal s 0 with
         | Some v => (v <=? 255)%nat
         | None => false
         end
  end.

Definition ipv4_literal (s : string) : bool :=
  let parts := split_dots s in
  (List.length parts =? 4)%nat && forallb octet parts.

Definition world : world :=
  {| ip_literal := fun s => ipv4_literal s || (s =? "::1")%string;
     probe_of := fun ip port =>
       if (ip =? "127.0.0.1")%string then
         if (port =? 7001)%Z then Net.listening else Net.refused
       else if (ip =? "::1")%string then Net.wrong_family
       else Net.timed_out;
     schedule := fun i => if (i <? 3)%nat then O else 2%nat |}.
End Lab.

(** ** Observations on the event log *)

Fixpoint printed (log : list event) : list string :=
  match log with
  | [] => []
  | EvPrint line :: log' => line :: printed log'
  | _ :: log' => printed log'
  end.

Fixpoint timeouts_of (log : list event) : list Q :=
  match log with
  | [] => []
  | EvSetTimeout t :: log' => t :: timeouts_of log'
  | _ :: log' => timeouts_of log'
  end.

Definition sockets_opened (log : list event) : nat :=
  List.length (filter (fun ev => match ev with EvSocket => true | _ => false end) log).

Definition sockets_closed (log : list event) : nat :=
  List.length (filter (fun ev => match ev with EvClose => true | _ => false end) log).

(** The user-visible behaviours of one invocation, recognised by the line
    that announces each of them. *)
Inductive behaviour : Type :=
  | ValidationError
  | ScanError
  | NoOpenPorts
  | OpenTable.

Definition shows (out : list string) (b : behaviour) : bool :=
  match b with
  | ValidationError => existsb (String.prefix "Error: Invalid ") out
  | ScanError => existsb (String.prefix "Error during scanning: ") out
  | NoOpenPorts => existsb (String.prefix (newline ^^ "No open ports found")) out
  | OpenTable => existsb (String.eqb msg_open_ports_found) out
  end.

Definition behaviours (out : list string) : list behaviour :=
  filter (shows out) [ValidationError; ScanError; NoOpenPorts; OpenTable].

(** The world [w] under another scheduler. *)
Definition with_schedule (w : world) (sched : nat -> nat) : world :=
  {| ip_literal := ip_literal w; probe_of := probe_of w; schedule := sched |}.

(** Whether every exception the environment raises in a probe is a
    [socket.error]. *)
Definition raises_only_socket_errors (env : probe_env) : bool :=
  match on_socket env with Some e => is_socket_error e | None => true end
  && match on_settimeout env with Some e => is_socket_error e | None => true end
  && match on_connect_ex env with inl e => is_socket_error e | inr _ => true end.

(** ** Auxiliary definitions for the proofs *)

Definition pool_items (st : pool) : list Z :=
  pending st ++ running st ++ completed st.

(** Work left: a queued item needs two steps, an item in flight one. *)
Definition pool_work (st : pool) : nat :=
  2 * List.length (pending st) + List.length (running st).

(** A computation is [steady] when its value and the events it adds do not
    depend on the log it starts from. *)
Definition steady {A} (m : M A) : Prop :=
  forall log, m log = (value_of m, log ++ log_of m).

Create HintDb steady.

(** What [scan_port]'s [except socket.error] does with an exception. *)
Definition caught (port : Z) (e : exn) : result outcome :=
  if is_socket_error e then Return (port, "Error") else Raise e.

(** The values of a list of finished futures, or the first exception. *)
Fixpoint all_results {A} (fs : list (future A)) : result (list A) :=
  match fs with
  | [] => Return []
  | Raise e :: _ => Raise e
  | Return a :: fs' =>
      match all_results fs' with
      | Return l => Return (a :: l)
      | Raise e => Raise e
      end
  end.

(** The probe [scan_ports] submits for a port. *)
Definition probe (w : world) (ip : string) (port : Z) : M outcome :=
  scan_port (probe_of w ip port) ip port scan_port_default_timeout.

(** The order in which the probes of a scan complete. *)
Definition completion_order (w : world) (start_port end_port max_threads : Z)
  : list Z :=
  as_completed max_threads (schedule w) (range start_port (end_port + 1)).

Definition value_or {A} (d : A) (r : result A) : A :=
  match r with
  | Return a => a
  | Raise _ => d
  end.

Definition range_invalid (start_port end_port : Z) : bool :=
  (start_port <? 1)%Z || (end_port >? 65535)%Z || (start_port >? end_port)%Z.

(** The part of [main] that runs once the arguments are accepted. *)
Definition report (w : world) (ip : string) (start_port end_port : Z)
    (max_threads : Z) : M unit :=
  try_except
    (results <- scan_ports w ip start_port end_port max_threads ;;
     let open_ports := filter is_open results in
     match open_ports with
     | _ :: _ =>
         print msg_open_ports_found ;;;
         display_results open_ports
     | [] =>
         print (msg_no_open_ports start_port end_port)
     end)
    is_Exception
    (fun e => print (msg_scan_error e)).

(** What the accepted part of [main] prints. *)
Definition report_lines (ip : string) (s e : Z) (scan : result (list outcome))
  : list string :=
  match scan with
  | Raise err => [msg_scan_error err]
  | Return results =>
      match filter is_open results with
      | [] => [msg_no_open_ports s e]
      | _ :: _ =>
          msg_open_ports_found :: table_header :: table_rule
            :: map (fun o => table_row (fst o) "Open") (filter is_open results)
      end
  end.

(** The first character of a printed integer. *)
Definition sign_or_digit : list ascii :=
  ["-"; "0"; "1"; "2"; "3"; "4"; "5"; "6"; "7"; "8"; "9"]%char.

Ltac by_first_char :=
  let c := fresh "c" in
  let rest := fresh "rest" in
  let H := fresh "H" in
  intros c rest H; unfold sign_or_digit in H; simpl in H;
  repeat (destruct H as [<-|H]; [reflexivity|]); destruct H.

(** The targets of the connection attempts in a log. *)
Fixpoint connect_attempts (log : list event) : list (string * Z) :=
  match log with
  | [] => []
  | EvConnectEx ip port :: log' => (ip, port) :: connect_attempts log'
  | _ :: log' => connect_attempts log'
  end.

(** The four socket calls of one probe, in program order. *)
Definition probe_calls (ip : string) (port : Z) (t : Q) : list event :=
  [EvSocket; EvSetTimeout t; EvConnectEx ip port; EvClose].

(** Whether [test] holds for the [n] integers from [a] on. *)
Fixpoint all_from (test : Z -> bool) (n : nat) (a : Z) : bool :=
  match n with
  | O => true
  | S n' => test a && all_from test n' (a + 1)%Z
  end.

(** The first exception the socket calls of a probe raise, if any. *)
Definition first_raised (env : probe_env) : option exn :=
  match on_socket env, on_settimeout env, on_connect_ex env with
  | Some e, _, _ => Some e
  | None, Some e, _ => Some e
  | None, None, inl e => Some e
  | None, None, inr _ => None
  end.




(** * Properties *)

(** ** Sorting by a key *)

Section SortByFacts.
Context {A : Type} (key : A -> Z).

Lemma insert_by_perm (x : A) (l : list A) :
  Permutation (insert_by key x l) (x :: l).
Proof.
  induction l as [|y l IH]; simpl.
  - apply Permutation_refl.
  - destruct (key x <=? key y)%Z.
    + apply Permutation_refl.
    + eapply perm_trans; [apply perm_skip, IH | apply perm_swap].
Qed.

Lemma sort_by_perm (l : list A) : Permutation (sort_by key l) l.
Proof.
  induction l as [|x l IH]; simpl.
  - apply perm_nil.
  - eapply perm_trans; [apply insert_by_perm | apply perm_skip, IH].
Qed.


Lemma insert_by_sorted (x : A) (l : list A) :
  StronglySorted (key_le key) l -> StronglySorted (key_le key) (insert_by key x l).
Proof.
  induction 1 as [|y l Hs IH Hy]; simpl.
  - constructor; [constructor | constructor].
  - destruct (Z.leb_spec (key x) (key y)) as [Hle|Hgt].
    + constructor; [constructor; assumption|].
      constructor; [exact Hle|].
      eapply Forall_impl; [|exact Hy].
      intros z Hz. unfold key_le in *. lia.
    + constructor; [exact IH|].
      eapply Permutation_Forall; [apply Permutation_sym, insert_by_perm|].
      constructor; [unfold key_le; lia | exact Hy].
Qed.

Lemma sort_by_sorted (l : list A) : StronglySorted (key_le key) (sort_by key l).
Proof.
  induction l as [|x l IH]; simpl.
  - constructor.
  - apply insert_by_sorted, IH.
Qed.

(** With pairwise distinct keys a sorted list is strictly sorted. *)
Lemma sorted_nodup_strict (l : list A) :
  StronglySorted (key_le key) l -> NoDup (map key l) -> StronglySorted (key_lt key) l.
Proof.
  induction 1 as [|x l Hs IH Hx]; intros Hnd.
  - constructor.
  - simpl in Hnd. inversion Hnd as [|k ks Hnotin Hnd']; subst.
    constructor; [apply IH, Hnd'|].
    rewrite Forall_forall in *. intros y Hy.
    specialize (Hx y Hy). unfold key_le, key_lt in *.
    assert (key x <> key y).
    { intros Heq. apply Hnotin. rewrite Heq. apply in_map, Hy. }
    lia.
Qed.

(** A strictly sorted list is the only strictly sorted arrangement of its
    elements. *)
Lemma strict_sorted_unique (l1 : list A) :
  forall l2, StronglySorted (key_lt key) l1 -> StronglySorted (key_lt key) l2 ->
             Permutation l1 l2 -> l1 = l2.
Proof.
  induction l1 as [|a l1 IH]; intros l2 H1 H2 Hp.
  - apply Permutation_nil in Hp. now subst.
  - destruct l2 as [|b l2].
    + apply Permutation_sym, Permutation_nil in Hp. discriminate.
    + apply StronglySorted_inv in H1 as [H1 Ha].
      apply StronglySorted_inv in H2 as [H2 Hb].
      rewrite Forall_forall in Ha, Hb.
      assert (Hab : a = b).
      { assert (Hina : In a (b :: l2))
          by (eapply Permutation_in; [exact Hp | now left]).
        assert (Hinb : In b (a :: l1))
          by (eapply Permutation_in; [apply Permutation_sym, Hp | now left]).
        destruct Hina as [->|Hina]; [reflexivity|].
        destruct Hinb as [->|Hinb]; [reflexivity|].
        specialize (Ha _ Hinb). specialize (Hb _ Hina).
        unfold key_lt in *. lia. }
      subst b. f_equal.
      apply IH; try assumption.
      eapply Permutation_cons_inv, Hp.
Qed.

Lemma sort_by_strict (l : list A) :
  NoDup (map key l) -> StronglySorted (key_lt key) (sort_by key l).
Proof.
  intros Hnd. apply sorted_nodup_strict; [apply sort_by_sorted|].
  eapply Permutation_NoDup; [|exact Hnd].
  apply Permutation_map, Permutation_sym, sort_by_perm.
Qed.

(** The sorted list does not depend on the order of the input when the
    keys are pairwise distinct. *)
Lemma sort_by_permutation (l l' : list A) :
  NoDup (map key l) -> Permutation l l' -> sort_by key l = sort_by key l'.
Proof.
  intros Hnd Hp.
  apply strict_sorted_unique.
  - apply sort_by_strict, Hnd.
  - apply sort_by_strict.
    eapply Permutation_NoDup; [apply Permutation_map, Hp | exact Hnd].
  - eapply perm_trans; [apply sort_by_perm|].
    eapply perm_trans; [exact Hp | apply Permutation_sym, sort_by_perm].
Qed.

Lemma sort_by_already_sorted (l : list A) :
  StronglySorted (key_lt key) l -> sort_by key l = l.
Proof.
  intros Hs. apply strict_sorted_unique; [|exact Hs|apply sort_by_perm].
  apply sort_by_strict.
  clear -Hs. induction Hs as [|x l Hs IH Hx]; simpl; constructor; [|exact IH].
  rewrite in_map_iff. intros [y [Heq Hy]].
  rewrite Forall_forall in Hx. specialize (Hx y Hy).
  unfold key_lt in Hx. lia.
Qed.
End SortByFacts.

(** ** range *)

Lemma range_length (a b : Z) : List.length (range a b) = Z.to_nat (b - a).
Proof. unfold range. now rewrite length_map, length_seq. Qed.

Lemma range_In (a b x : Z) : In x (range a b) <-> (a <= x < b)%Z.
Proof.
  unfold range. rewrite in_map_iff. split.
  - intros [i [<- Hi]]. apply in_seq in Hi. lia.
  - intros Hx. exists (Z.to_nat (x - a)). split; [lia|].
    apply in_seq. lia.
Qed.

Lemma range_sorted_from (a : Z) (n k : nat) :
  StronglySorted Z.lt (map (fun i => (a + Z.of_nat i)%Z) (seq k n)).
Proof.
  revert k. induction n as [|n IH]; intros k; simpl.
  - constructor.
  - constructor; [apply IH|].
    rewrite Forall_forall. intros x Hx.
    apply in_map_iff in Hx as [i [<- Hi]]. apply in_seq in Hi. lia.
Qed.

Lemma range_sorted (a b : Z) : StronglySorted Z.lt (range a b).
Proof. apply range_sorted_from. Qed.

Lemma strict_sorted_NoDup (l : list Z) : StronglySorted Z.lt l -> NoDup l.
Proof.
  induction 1 as [|x l Hs IH Hx]; constructor; [|exact IH].
  intros Hin. rewrite Forall_forall in Hx. specialize (Hx x Hin). lia.
Qed.

Lemma range_NoDup (a b : Z) : NoDup (range a b).
Proof. apply strict_sorted_NoDup, range_sorted. Qed.

(** ** The thread pool *)

Lemma remove_nth_middle {A} (l1 l2 : list A) (p : A) :
  remove_nth (List.length l1) (l1 ++ p :: l2) = l1 ++ l2.
Proof.
  unfold remove_nth. induction l1 as [|x l1 IH]; simpl.
  - reflexivity.
  - f_equal. exact IH.
Qed.

Lemma remove_nth_perm {A} (i : nat) (l : list A) (p : A) :
  nth_error l i = Some p -> Permutation l (p :: remove_nth i l).
Proof.
  intros H. apply nth_error_split in H as [l1 [l2 [-> Hlen]]].
  subst i. rewrite remove_nth_middle.
  apply Permutation_sym, Permutation_middle.
Qed.

Lemma remove_nth_length {A} (i : nat) (l : list A) (p : A) :
  nth_error l i = Some p -> S (List.length (remove_nth i l)) = List.length l.
Proof.
  intros H. apply remove_nth_perm in H. apply Permutation_length in H.
  simpl in H. lia.
Qed.

Lemma start_items (st : pool) : Permutation (pool_items (start st)) (pool_items st).
Proof.
  destruct st as [pe ru co]. unfold start, pool_items. simpl.
  destruct pe as [|p q]; simpl.
  - apply Permutation_refl.
  - rewrite <- app_assoc. simpl.
    apply Permutation_sym. rewrite !app_assoc.
    apply Permutation_cons_app, Permutation_refl.
Qed.

Lemma finish_items (i : nat) (st : pool) :
  Permutation (pool_items (finish i st)) (pool_items st).
Proof.
  destruct st as [pe ru co]. unfold finish, pool_items. simpl.
  destruct (nth_error ru i) as [p|] eqn:Hnth; simpl.
  - apply Permutation_app_head.
    apply remove_nth_perm in Hnth.
    apply Permutation_sym.
    eapply perm_trans; [apply Permutation_app_tail, Hnth|].
    simpl. rewrite app_assoc. apply Permutation_cons_append.
  - apply Permutation_refl.
Qed.

Lemma pool_step_items (mw : Z) (c : nat) (st : pool) :
  Permutation (pool_items (pool_step mw c st)) (pool_items st).
Proof.
  unfold pool_step.
  destruct (running st); destruct (can_start mw st); simpl;
    try destruct (c =? 0)%nat; simpl;
    auto using start_items, finish_items, Permutation_refl.
Qed.

Lemma can_start_true (mw : Z) (st : pool) :
  can_start mw st = true ->
  pending st <> [] /\ (Z.of_nat (List.length (running st)) < mw)%Z.
Proof.
  unfold can_start. destruct (pending st); [discriminate|].
  intros H. apply Z.ltb_lt in H. split; [discriminate | exact H].
Qed.

Lemma start_work (st : pool) :
  pending st <> [] -> pool_work (start st) = Nat.pred (pool_work st).
Proof.
  destruct st as [pe ru co]. unfold start, pool_work. simpl.
  destruct pe as [|p q]; [congruence|]. intros _. simpl.
  rewrite length_app. simpl. lia.
Qed.

Lemma finish_work (i : nat) (st : pool) :
  (i < List.length (running st))%nat ->
  pool_work (finish i st) = Nat.pred (pool_work st).
Proof.
  destruct st as [pe ru co]. unfold finish, pool_work. simpl. intros Hi.
  destruct (nth_error ru i) eqn:Hnth; simpl.
  - apply remove_nth_length in Hnth. lia.
  - apply nth_error_None in Hnth. lia.
Qed.

Lemma pool_step_work (mw : Z) (c : nat) (st : pool) :
  (1 <= mw)%Z -> pool_work (pool_step mw c st) = Nat.pred (pool_work st).
Proof.
  intros Hmw. unfold pool_step.
  destruct (running st) as [|r ru'] eqn:Hr.
  - destruct (can_start mw st) eqn:Hc.
    + apply start_work. now apply can_start_true in Hc.
    + unfold can_start in Hc. unfold pool_work. rewrite Hr in *.
      destruct (pending st); [reflexivity|].
      apply Z.ltb_ge in Hc. simpl in Hc. lia.
  - assert (Hmod : (c mod List.length (r :: ru') < List.length (running st))%nat)
      by (rewrite Hr; apply Nat.mod_upper_bound; simpl; lia).
    destruct (can_start mw st) eqn:Hc; simpl.
    + destruct (c =? 0)%nat.
      * apply start_work. now apply can_start_true in Hc.
      * apply finish_work, Hmod.
    + apply finish_work, Hmod.
Qed.

Lemma pool_run_items (mw : Z) (sched : nat -> nat) (n i : nat) (st : pool) :
  Permutation (pool_items (pool_run mw sched n i st)) (pool_items st).
Proof.
  revert i st. induction n as [|n IH]; intros i st; simpl.
  - apply Permutation_refl.
  - eapply perm_trans; [apply IH | apply pool_step_items].
Qed.

Lemma pool_run_work (mw : Z) (sched : nat -> nat) (n i : nat) (st : pool) :
  (1 <= mw)%Z -> pool_work (pool_run mw sched n i st) = (pool_work st - n)%nat.
Proof.
  intros Hmw. revert i st. induction n as [|n IH]; intros i st; simpl.
  - lia.
  - rewrite IH, pool_step_work by exact Hmw. lia.
Qed.

(** After two steps per item nothing is queued or in flight. *)
Lemma pool_final_done (mw : Z) (sched : nat -> nat) (ports : list Z) :
  (1 <= mw)%Z ->
  pending (pool_final mw sched ports) = [] /\
  running (pool_final mw sched ports) = [] /\
  Permutation (completed (pool_final mw sched ports)) ports.
Proof.
  intros Hmw. unfold pool_final.
  pose proof (pool_run_work mw sched (2 * List.length ports) 0 (submitted ports) Hmw) as Hw.
  pose proof (pool_run_items mw sched (2 * List.length ports) 0 (submitted ports)) as Hi.
  set (st := pool_run mw sched (2 * List.length ports) 0 (submitted ports)) in *.
  unfold pool_work in Hw. simpl in Hw.
  assert (Hp : pending st = []) by (destruct (pending st); [reflexivity | simpl in Hw; lia]).
  assert (Hr : running st = []) by (destruct (running st); [reflexivity | simpl in Hw; lia]).
  repeat split; try assumption.
  unfold pool_items in Hi. rewrite Hp, Hr in Hi. simpl in Hi.
  rewrite app_nil_r in Hi. exact Hi.
Qed.

(** ** The monad: computations only append to the log *)

Lemma steady_ret {A} (a : A) : steady (ret a).
Proof. intros log. unfold ret, value_of, log_of. simpl. now rewrite app_nil_r. Qed.

Lemma steady_raise {A} (e : exn) : steady (@raise A e).
Proof. intros log. unfold raise, value_of, log_of. simpl. now rewrite app_nil_r. Qed.

Lemma steady_emit (ev : event) : steady (emit ev).
Proof. intros log. reflexivity. Qed.

Lemma bind_run {A B} (m : M A) (k : A -> M B) (log : list event) :
  steady m -> (forall a, steady (k a)) ->
  bind m k log =
  match value_of m with
  | Return a => (value_of (k a), log ++ log_of m ++ log_of (k a))
  | Raise e => (Raise e, log ++ log_of m)
  end.
Proof.
  intros Hm Hk. unfold bind. rewrite Hm.
  destruct (value_of m) as [a|e]; [|reflexivity].
  rewrite Hk. now rewrite app_assoc.
Qed.

Lemma steady_bind {A B} (m : M A) (k : A -> M B) :
  steady m -> (forall a, steady (k a)) -> steady (bind m k).
Proof.
  intros Hm Hk log. unfold value_of, log_of.
  rewrite !bind_run by assumption.
  destruct (value_of m); simpl; reflexivity.
Qed.

Lemma try_except_run {A} (body : M A) (catches : exn -> bool)
    (handler : exn -> M A) (log : list event) :
  steady body -> (forall e, steady (handler e)) ->
  try_except body catches handler log =
  match value_of body with
  | Return a => (Return a, log ++ log_of body)
  | Raise e =>
      if catches e
      then (value_of (handler e), log ++ log_of body ++ log_of (handler e))
      else (Raise e, log ++ log_of body)
  end.
Proof.
  intros Hb Hh. unfold try_except. rewrite Hb.
  destruct (value_of body) as [a|e]; [reflexivity|].
  destruct (catches e); [|reflexivity].
  rewrite Hh. now rewrite app_assoc.
Qed.

Lemma steady_try_except {A} (body : M A) (catches : exn -> bool)
    (handler : exn -> M A) :
  steady body -> (forall e, steady (handler e)) ->
  steady (try_except body catches handler).
Proof.
  intros Hb Hh log. unfold value_of, log_of.
  rewrite !try_except_run by assumption.
  destruct (value_of body) as [a|e]; [reflexivity|].
  destruct (catches e); reflexivity.
Qed.

Lemma worker_run_run {A} (task : M A) (log : list event) :
  steady task ->
  worker_run task log = (Return (value_of task), log ++ log_of task).
Proof. intros Ht. unfold worker_run. now rewrite Ht. Qed.

Lemma steady_worker_run {A} (task : M A) : steady task -> steady (worker_run task).
Proof.
  intros Ht log. unfold value_of, log_of.
  rewrite !worker_run_run by assumption. reflexivity.
Qed.

Lemma steady_future_result {A} (f : future A) : steady (future_result f).
Proof. destruct f; [apply steady_ret | apply steady_raise]. Qed.

#[local] Hint Resolve steady_ret steady_raise steady_emit steady_bind
  steady_try_except steady_worker_run steady_future_result : steady.

Lemma steady_if {A} (b : bool) (m1 m2 : M A) :
  steady m1 -> steady m2 -> steady (if b then m1 else m2).
Proof. now destruct b. Qed.

#[local] Hint Resolve steady_if : steady.

Lemma steady_map_M {A B} (f : A -> M B) (l : list A) :
  (forall x, steady (f x)) -> steady (map_M f l).
Proof.
  intros Hf. induction l as [|x l IH]; simpl; auto 10 with steady.
Qed.

Lemma steady_collect (futures : list (future outcome)) :
  forall results, steady (collect futures results).
Proof.
  induction futures as [|f rest IH]; intros results; simpl; auto with steady.
Qed.

Lemma steady_for_each {A} (l : list A) (body : A -> M unit) :
  (forall x, steady (body x)) -> steady (for_each l body).
Proof.
  intros Hb. induction l as [|x l IH]; simpl; auto with steady.
Qed.

#[local] Hint Resolve steady_map_M steady_collect steady_for_each : steady.

Lemma steady_socket_socket (env : probe_env) : steady (socket_socket env).
Proof. unfold socket_socket. destruct (on_socket env); auto with steady. Qed.

Lemma steady_sock_settimeout (env : probe_env) (t : Q) :
  steady (sock_settimeout env t).
Proof. unfold sock_settimeout. destruct (on_settimeout env); auto with steady. Qed.

Lemma steady_sock_connect_ex (env : probe_env) (ip : string) (port : Z) :
  steady (sock_connect_ex env ip port).
Proof. unfold sock_connect_ex. destruct (on_connect_ex env); auto with steady. Qed.

Lemma steady_sock_close : steady sock_close.
Proof. apply steady_emit. Qed.

#[local] Hint Resolve steady_socket_socket steady_sock_settimeout
  steady_sock_connect_ex steady_sock_close : steady.

Lemma steady_scan_port (env : probe_env) (ip : string) (port : Z) (t : Q) :
  steady (scan_port env ip port t).
Proof. unfold scan_port. auto 10 with steady. Qed.

#[local] Hint Resolve steady_scan_port : steady.

Lemma steady_ThreadPoolExecutor (mw : Z) : steady (ThreadPoolExecutor mw).
Proof. unfold ThreadPoolExecutor. auto with steady. Qed.

Lemma steady_aggregate (futures : list (future outcome)) : steady (aggregate futures).
Proof. unfold aggregate. auto with steady. Qed.

#[local] Hint Resolve steady_ThreadPoolExecutor steady_aggregate : steady.

Lemma steady_submit (w : world) (ip : string) (port : Z) :
  steady (submit w ip port).
Proof. unfold submit. auto with steady. Qed.

#[local] Hint Resolve steady_submit : steady.

Lemma steady_scan_ports (w : world) (ip : string) (s e mt : Z) :
  steady (scan_ports w ip s e mt).
Proof. unfold scan_ports. auto 10 with steady. Qed.

Lemma steady_print (line : string) : steady (print line).
Proof. apply steady_emit. Qed.

#[local] Hint Resolve steady_scan_ports steady_print : steady.

Lemma steady_display_results (results : list outcome) :
  steady (display_results results).
Proof.
  unfold display_results.
  apply steady_bind; [auto with steady|]. intros _.
  apply steady_bind; [auto with steady|]. intros _.
  apply steady_for_each. intros [port status]. auto with steady.
Qed.

Lemma steady_validate_ip (w : world) (ip : string) : steady (validate_ip w ip).
Proof. unfold validate_ip, ipaddress_ip_address. auto 10 with steady. Qed.

#[local] Hint Resolve steady_display_results steady_validate_ip : steady.

Lemma value_of_bind {A B} (m : M A) (k : A -> M B) :
  steady m -> (forall a, steady (k a)) ->
  value_of (bind m k) =
  match value_of m with
  | Return a => value_of (k a)
  | Raise e => Raise e
  end.
Proof.
  intros Hm Hk. unfold value_of at 1. rewrite bind_run by assumption.
  now destruct (value_of m).
Qed.

Lemma log_of_bind {A B} (m : M A) (k : A -> M B) :
  steady m -> (forall a, steady (k a)) ->
  log_of (bind m k) =
  log_of m ++ match value_of m with
              | Return a => log_of (k a)
              | Raise e => []
              end.
Proof.
  intros Hm Hk. unfold log_of at 1. rewrite bind_run by assumption.
  destruct (value_of m); simpl; [reflexivity | now rewrite app_nil_r].
Qed.

Lemma value_of_try_except {A} (body : M A) (catches : exn -> bool)
    (handler : exn -> M A) :
  steady body -> (forall e, steady (handler e)) ->
  value_of (try_except body catches handler) =
  match value_of body with
  | Return a => Return a
  | Raise e => if catches e then value_of (handler e) else Raise e
  end.
Proof.
  intros Hb Hh. unfold value_of at 1. rewrite try_except_run by assumption.
  destruct (value_of body) as [a|e]; [reflexivity|].
  now destruct (catches e).
Qed.

Lemma log_of_try_except {A} (body : M A) (catches : exn -> bool)
    (handler : exn -> M A) :
  steady body -> (forall e, steady (handler e)) ->
  log_of (try_except body catches handler) =
  log_of body ++ match value_of body with
                 | Return a => []
                 | Raise e => if catches e then log_of (handler e) else []
                 end.
Proof.
  intros Hb Hh. unfold log_of at 1. rewrite try_except_run by assumption.
  destruct (value_of body) as [a|e]; simpl; [now rewrite app_nil_r|].
  destruct (catches e); simpl; [reflexivity | now rewrite app_nil_r].
Qed.

Lemma value_of_print (line : string) : value_of (print line) = Return tt.
Proof. reflexivity. Qed.

Lemma log_of_print (line : string) : log_of (print line) = [EvPrint line].
Proof. reflexivity. Qed.

(** ** scan_port, case by case *)

Lemma scan_port_value (env : probe_env) (ip : string) (port : Z) (t : Q) :
  value_of (scan_port env ip port t) =
  match on_socket env, on_settimeout env, on_connect_ex env with
  | Some e, _, _ => caught port e
  | None, Some e, _ => caught port e
  | None, None, inl e => caught port e
  | None, None, inr code =>
      Return (port, if (code =? 0)%Z then "Open" else "Closed")
  end.
Proof.
  destruct env as [[e1|] [e2|] [e3|code]];
    unfold value_of, scan_port, try_except, bind, socket_socket,
      sock_settimeout, sock_connect_ex, sock_close, emit, raise, ret, caught;
    simpl;
    try (destruct (is_socket_error _); reflexivity).
  destruct (code =? 0)%Z; reflexivity.
Qed.

Lemma scan_port_log (env : probe_env) (ip : string) (port : Z) (t : Q) :
  log_of (scan_port env ip port t) =
  match on_socket env, on_settimeout env, on_connect_ex env with
  | Some _, _, _ => []
  | None, Some _, _ => [EvSocket; EvSetTimeout t]
  | None, None, inl _ => [EvSocket; EvSetTimeout t; EvConnectEx ip port]
  | None, None, inr _ => [EvSocket; EvSetTimeout t; EvConnectEx ip port; EvClose]
  end.
Proof.
  destruct env as [[e1|] [e2|] [e3|code]];
    unfold log_of, scan_port, try_except, bind, socket_socket,
      sock_settimeout, sock_connect_ex, sock_close, emit, raise, ret;
    simpl;
    try (destruct (is_socket_error _); reflexivity).
  destruct (code =? 0)%Z; reflexivity.
Qed.

Lemma scan_port_returns_port (env : probe_env) (ip : string) (port : Z) (t : Q)
    (o : outcome) :
  value_of (scan_port env ip port t) = Return o ->
  fst o = port /\ In (snd o) ["Open"; "Closed"; "Error"].
Proof.
  rewrite scan_port_value. unfold caught.
  destruct (on_socket env) as [e1|];
    [|destruct (on_settimeout env) as [e2|];
      [|destruct (on_connect_ex env) as [e3|code]]];
    try (destruct (is_socket_error _); [|discriminate]);
    try destruct (code =? 0)%Z;
    intros [= <-]; simpl; auto.
Qed.

Lemma scan_port_raise_not_socket_error (env : probe_env) (ip : string)
    (port : Z) (t : Q) (e : exn) :
  value_of (scan_port env ip port t) = Raise e -> is_socket_error e = false.
Proof.
  rewrite scan_port_value. unfold caught.
  destruct (on_socket env) as [e1|];
    [|destruct (on_settimeout env) as [e2|];
      [|destruct (on_connect_ex env) as [e3|code]]];
    try (destruct (is_socket_error _) eqn:Hs; [discriminate|]);
    intros [= <-]; try assumption.
Qed.

Lemma scan_port_only_socket_errors (env : probe_env) (ip : string)
    (port : Z) (t : Q) :
  raises_only_socket_errors env = true ->
  exists status, value_of (scan_port env ip port t) = Return (port, status).
Proof.
  unfold raises_only_socket_errors. intros H.
  apply andb_true_iff in H as [H12 H3].
  apply andb_true_iff in H12 as [H1 H2].
  rewrite scan_port_value. unfold caught.
  destruct (on_socket env) as [e1|]; [rewrite H1; eauto|].
  destruct (on_settimeout env) as [e2|]; [rewrite H2; eauto|].
  destruct (on_connect_ex env) as [e3|code]; [rewrite H3; eauto|].
  eauto.
Qed.

(** ** scan_ports, unfolded *)

Lemma collect_value (fs : list (future outcome)) :
  forall acc,
    value_of (collect fs acc) =
    match all_results fs with
    | Return l => Return (acc ++ l)
    | Raise e => Raise e
    end.
Proof.
  induction fs as [|f fs IH]; intros acc; simpl.
  - unfold value_of, ret. simpl. now rewrite app_nil_r.
  - rewrite value_of_bind by auto with steady.
    destruct f as [a|e]; simpl.
    + change (value_of (ret a)) with (Return a). cbv iota beta.
      rewrite IH. destruct (all_results fs); [|reflexivity].
      now rewrite <- app_assoc.
    + reflexivity.
Qed.

Lemma collect_log (fs : list (future outcome)) :
  forall acc, log_of (collect fs acc) = [].
Proof.
  induction fs as [|f fs IH]; intros acc; simpl.
  - reflexivity.
  - rewrite log_of_bind by auto with steady.
    destruct f as [a|e]; simpl; [apply IH | reflexivity].
Qed.

Lemma aggregate_value (fs : list (future outcome)) :
  value_of (aggregate fs) =
  match all_results fs with
  | Return l => Return (sort_by fst l)
  | Raise e => Raise e
  end.
Proof.
  unfold aggregate. rewrite value_of_bind by auto with steady.
  rewrite collect_value. simpl. now destruct (all_results fs).
Qed.

Lemma aggregate_log (fs : list (future outcome)) : log_of (aggregate fs) = [].
Proof.
  unfold aggregate. rewrite log_of_bind by auto with steady.
  rewrite collect_log. simpl. now destruct (value_of (collect fs [])).
Qed.

Lemma map_M_worker_value {A B} (task : A -> M B) (l : list A) :
  (forall x, steady (task x)) ->
  value_of (map_M (fun x => worker_run (task x)) l)
  = Return (map (fun x => value_of (task x)) l).
Proof.
  intros Ht. induction l as [|x l IH]; simpl; [reflexivity|].
  rewrite value_of_bind by auto 10 with steady.
  unfold value_of at 1. rewrite worker_run_run by apply Ht. simpl.
  rewrite value_of_bind by auto 10 with steady.
  rewrite IH. reflexivity.
Qed.

Lemma map_M_worker_log {A B} (task : A -> M B) (l : list A) :
  (forall x, steady (task x)) ->
  log_of (map_M (fun x => worker_run (task x)) l)
  = flat_map (fun x => log_of (task x)) l.
Proof.
  intros Ht. induction l as [|x l IH]; simpl; [reflexivity|].
  rewrite log_of_bind by auto 10 with steady.
  unfold value_of at 1, log_of at 1. rewrite worker_run_run by apply Ht. simpl.
  f_equal.
  rewrite log_of_bind by auto 10 with steady.
  rewrite IH, map_M_worker_value by apply Ht.
  simpl. unfold log_of at 2, ret. simpl. now rewrite app_nil_r.
Qed.

Lemma scan_ports_value (w : world) (ip : string) (s e mt : Z) :
  value_of (scan_ports w ip s e mt) =
  if (mt <=? 0)%Z
  then Raise (Exn ValueError "max_workers must be greater than 0")
  else match all_results (map (fun port => value_of (probe w ip port))
                              (completion_order w s e mt)) with
       | Return outs => Return (sort_by fst outs)
       | Raise e => Raise e
       end.
Proof.
  unfold scan_ports. rewrite value_of_bind by auto 10 with steady.
  unfold ThreadPoolExecutor.
  destruct (mt <=? 0)%Z; [reflexivity|].
  change (value_of (ret tt)) with (Return tt). cbv iota beta.
  rewrite value_of_bind by auto 10 with steady.
  rewrite (map_M_worker_value (probe w ip))
    by (intros x; apply steady_scan_port).
  apply aggregate_value.
Qed.

Lemma scan_ports_log (w : world) (ip : string) (s e mt : Z) :
  log_of (scan_ports w ip s e mt) =
  if (mt <=? 0)%Z then []
  else flat_map (fun port => log_of (probe w ip port)) (completion_order w s e mt).
Proof.
  unfold scan_ports. rewrite log_of_bind by auto 10 with steady.
  unfold ThreadPoolExecutor.
  destruct (mt <=? 0)%Z; [reflexivity|].
  change (value_of (ret tt)) with (Return tt). cbv iota beta.
  change (log_of (ret tt)) with (@nil event). simpl app.
  rewrite log_of_bind by auto 10 with steady.
  rewrite (map_M_worker_log (probe w ip)), (map_M_worker_value (probe w ip))
    by (intros x; apply steady_scan_port).
  rewrite aggregate_log. now rewrite app_nil_r.
Qed.

Lemma all_results_ports (w : world) (ip : string) (order : list Z) :
  forall outs,
    all_results (map (fun port => value_of (probe w ip port)) order) = Return outs ->
    map fst outs = order.
Proof.
  induction order as [|port order IH]; intros outs; simpl.
  - now intros [= <-].
  - destruct (value_of (probe w ip port)) as [o|e] eqn:Ho; [|discriminate].
    destruct (all_results _) as [l|e]; [|discriminate].
    intros [= <-]. simpl. f_equal.
    + now apply scan_port_returns_port in Ho.
    + now apply IH.
Qed.

Lemma all_results_total (w : world) (ip : string) (order : list Z) :
  (forall port, In port order ->
                raises_only_socket_errors (probe_of w ip port) = true) ->
  exists outs,
    all_results (map (fun port => value_of (probe w ip port)) order) = Return outs.
Proof.
  induction order as [|port order IH]; intros H; simpl.
  - eauto.
  - destruct (scan_port_only_socket_errors (probe_of w ip port) ip port
                scan_port_default_timeout) as [status Hs].
    { apply H. now left. }
    unfold probe. rewrite Hs.
    destruct IH as [outs Houts].
    { intros p Hp. apply H. now right. }
    unfold probe in Houts. rewrite Houts. eauto.
Qed.

Lemma map_insert_by {A} (key : A -> Z) (x : A) (l : list A) :
  map key (insert_by key x l) = insert_by (fun z => z) (key x) (map key l).
Proof.
  induction l as [|y l IH]; simpl; [reflexivity|].
  destruct (key x <=? key y)%Z; simpl; [reflexivity | now rewrite IH].
Qed.

Lemma map_sort_by {A} (key : A -> Z) (l : list A) :
  map key (sort_by key l) = sort_by (fun z => z) (map key l).
Proof.
  induction l as [|x l IH]; simpl; [reflexivity|].
  now rewrite map_insert_by, IH.
Qed.

Lemma completion_order_perm (w : world) (s e mt : Z) :
  (1 <= mt)%Z -> Permutation (completion_order w s e mt) (range s (e + 1)).
Proof. intros Hmt. now apply pool_final_done. Qed.

Lemma sort_completion_order (w : world) (s e mt : Z) :
  (1 <= mt)%Z ->
  sort_by (fun z => z) (completion_order w s e mt) = range s (e + 1).
Proof.
  intros Hmt.
  rewrite <- (sort_by_already_sorted (fun z => z) (range s (e + 1)))
    by apply range_sorted.
  apply sort_by_permutation.
  - rewrite map_id. eapply Permutation_NoDup; [|apply range_NoDup].
    apply Permutation_sym, completion_order_perm, Hmt.
  - apply completion_order_perm, Hmt.
Qed.

(** The ports of a returned scan are the range, in order. *)
Lemma scan_ports_ports (w : world) (ip : string) (s e mt : Z)
    (results : list outcome) :
  value_of (scan_ports w ip s e mt) = Return results ->
  map fst results = range s (e + 1).
Proof.
  rewrite scan_ports_value.
  destruct (Z.leb_spec mt 0) as [Hle|Hgt]; [discriminate|].
  destruct (all_results _) as [outs|err] eqn:Houts; [|discriminate].
  intros [= <-].
  rewrite map_sort_by, (all_results_ports _ _ _ _ Houts).
  apply sort_completion_order. lia.
Qed.

Lemma scan_ports_returns (w : world) (ip : string) (s e mt : Z) :
  (1 <= mt)%Z ->
  (forall port, (s <= port <= e)%Z ->
                raises_only_socket_errors (probe_of w ip port) = true) ->
  exists results, value_of (scan_ports w ip s e mt) = Return results.
Proof.
  intros Hmt Henv. rewrite scan_ports_value.
  destruct (Z.leb_spec mt 0) as [Hle|Hgt]; [lia|].
  destruct (all_results_total w ip (completion_order w s e mt)) as [outs ->].
  - intros port Hin. apply Henv.
    eapply Permutation_in in Hin; [|apply completion_order_perm, Hmt].
    apply range_In in Hin. lia.
  - eauto.
Qed.

(** ** C1 *)

(** C1. For a valid port range [s..e], a list returned by [scan_ports] has
    length [e - s + 1] and holds exactly one outcome for each port of the
    range: its ports are [s, s+1, ..., e], without duplicate or gap. And the
    call does return a list whenever the pool has at least one worker and the
    probes meet nothing but [socket.error]s. *)
Theorem scan_ports_one_outcome_per_port (w : world) (ip : string)
    (s e mt : Z) :
  (1 <= s <= e)%Z -> (e <= 65535)%Z ->
  (forall results,
      value_of (scan_ports w ip s e mt) = Return results ->
      Z.of_nat (List.length results) = (e - s + 1)%Z /\
      map fst results = range s (e + 1) /\
      NoDup (map fst results) /\
      (forall port, In port (map fst results) <-> (s <= port <= e)%Z)) /\
  ((1 <= mt)%Z ->
   (forall port, (s <= port <= e)%Z ->
                 raises_only_socket_errors (probe_of w ip port) = true) ->
   exists results, value_of (scan_ports w ip s e mt) = Return results).
Proof.
  intros Hse He. split.
  - intros results Hres. apply scan_ports_ports in Hres.
    assert (Hlen : List.length results = List.length (range s (e + 1)))
      by (rewrite <- Hres; symmetry; apply length_map).
    rewrite Hres. split; [|split; [|split]].
    + rewrite Hlen, range_length. lia.
    + reflexivity.
    + apply range_NoDup.
    + intros port. rewrite range_In. lia.
  - apply scan_ports_returns.
Qed.

Lemma scan_ports_one_outcome_per_port_witness :
  (1 <= 7000 <= 7002)%Z /\ (7002 <= 65535)%Z /\
  ((forall results,
      value_of (scan_ports Lab.world "127.0.0.1" 7000 7002 100) = Return results ->
      Z.of_nat (List.length results) = (7002 - 7000 + 1)%Z /\
      map fst results = range 7000 (7002 + 1) /\
      NoDup (map fst results) /\
      (forall port, In port (map fst results) <-> (7000 <= port <= 7002)%Z)) /\
   ((1 <= 100)%Z ->
    (forall port, (7000 <= port <= 7002)%Z ->
       raises_only_socket_errors (probe_of Lab.world "127.0.0.1" port) = true) ->
    exists results,
      value_of (scan_ports Lab.world "127.0.0.1" 7000 7002 100) = Return results)).
Proof.
  split; [lia|]. split; [lia|].
  apply (scan_ports_one_outcome_per_port Lab.world "127.0.0.1" 7000 7002 100); lia.
Defined.

(** ** C2 *)

Lemma all_results_inv {A B} (f : A -> result B) (d : B) (l : list A) :
  forall outs,
    all_results (map f l) = Return outs ->
    outs = map (fun x => value_or d (f x)) l /\
    (forall x, In x l -> f x = Return (value_or d (f x))).
Proof.
  induction l as [|x l IH]; intros outs; simpl.
  - intros [= <-]. split; [reflexivity | intros x []].
  - destruct (f x) as [b|e] eqn:Hfx; [|discriminate].
    destruct (all_results (map f l)) as [bs|e] eqn:Hl; [|discriminate].
    intros [= <-]. destruct (IH bs eq_refl) as [-> Hall].
    split; [reflexivity|].
    intros y [<-|Hy]; [now rewrite Hfx | now apply Hall].
Qed.

Lemma all_results_map {A B} (f : A -> result B) (g : A -> B) (l : list A) :
  (forall x, In x l -> f x = Return (g x)) ->
  all_results (map f l) = Return (map g l).
Proof.
  induction l as [|x l IH]; intros H; simpl; [reflexivity|].
  rewrite (H x) by now left.
  rewrite IH by (intros y Hy; apply H; now right).
  reflexivity.
Qed.

Lemma all_results_Return {A} (l : list A) : all_results (map Return l) = Return l.
Proof.
  induction l as [|x l IH]; simpl; [reflexivity | now rewrite IH].
Qed.

Lemma strict_sorted_of_keys {A} (key : A -> Z) (l : list A) :
  StronglySorted Z.lt (map key l) -> StronglySorted (key_lt key) l.
Proof.
  induction l as [|x l IH]; simpl; intros H; [constructor|].
  apply StronglySorted_inv in H as [Hs Hx].
  constructor; [apply IH, Hs|].
  rewrite Forall_forall in *. intros y Hy.
  apply Hx, in_map, Hy.
Qed.

Lemma scan_ports_strictly_sorted (w : world) (ip : string) (s e mt : Z)
    (results : list outcome) :
  value_of (scan_ports w ip s e mt) = Return results ->
  StronglySorted (key_lt fst) results.
Proof.
  intros H. apply strict_sorted_of_keys.
  rewrite (scan_ports_ports _ _ _ _ _ _ H). apply range_sorted.
Qed.

(** The answers of the probes decide the result; the scheduler does not. *)
Lemma scan_ports_any_schedule (w : world) (ip : string) (s e mt : Z)
    (results : list outcome) (sched : nat -> nat) :
  value_of (scan_ports w ip s e mt) = Return results ->
  value_of (scan_ports (with_schedule w sched) ip s e mt) = Return results.
Proof.
  rewrite !scan_ports_value.
  destruct (Z.leb_spec mt 0) as [Hle|Hgt]; [discriminate|].
  assert (Hmt : (1 <= mt)%Z) by lia.
  destruct (all_results _) as [outs|err] eqn:Houts; [|discriminate].
  intros [= <-].
  pose proof (all_results_ports _ _ _ _ Houts) as Hports.
  apply (all_results_inv _ (0%Z, "")) in Houts as [-> Hall].
  set (g := fun port => value_or (0%Z, "") (value_of (probe w ip port))) in *.
  assert (Hperm : Permutation (completion_order w s e mt)
                    (completion_order (with_schedule w sched) s e mt)).
  { eapply perm_trans; [apply completion_order_perm, Hmt|].
    apply Permutation_sym, completion_order_perm, Hmt. }
  change (fun port => value_of (probe (with_schedule w sched) ip port))
    with (fun port => value_of (probe w ip port)).
  rewrite (all_results_map _ g).
  - apply f_equal. apply sort_by_permutation.
    + eapply Permutation_NoDup;
        [apply Permutation_map, Permutation_map, Hperm|].
      rewrite Hports.
      eapply Permutation_NoDup; [|apply range_NoDup].
      apply Permutation_sym, completion_order_perm, Hmt.
    + apply Permutation_map, Permutation_sym, Hperm.
  - intros port Hin. apply Hall.
    eapply Permutation_in; [apply Permutation_sym, Hperm | exact Hin].
Qed.

Lemma aggregate_permutation (results collected : list outcome) :
  StronglySorted (key_lt fst) results ->
  Permutation collected results ->
  value_of (aggregate (map Return collected)) = Return results.
Proof.
  intros Hs Hp. rewrite aggregate_value, all_results_Return.
  rewrite <- (sort_by_already_sorted fst results Hs).
  apply f_equal, sort_by_permutation; [|exact Hp].
  eapply Permutation_NoDup; [apply Permutation_map, Permutation_sym, Hp|].
  apply strict_sorted_NoDup.
  clear -Hs. induction Hs as [|x l Hs IH Hx]; simpl; constructor; [exact IH|].
  rewrite Forall_forall in *. intros k Hk.
  apply in_map_iff in Hk as [y [<- Hy]]. apply Hx, Hy.
Qed.

(** C2. The list [scan_ports] returns is strictly ascending by port, and it
    does not depend on the order in which the outcomes were collected: under
    any other scheduler the call returns the same list, and aggregating any
    permutation of the same outcomes (appending them, then sorting by port)
    gives that list again. *)
Theorem scan_ports_sorted_in_any_order (w : world) (ip : string) (s e mt : Z)
    (results : list outcome) :
  value_of (scan_ports w ip s e mt) = Return results ->
  StronglySorted (fun a b => (fst a < fst b)%Z) results /\
  (forall sched,
      value_of (scan_ports (with_schedule w sched) ip s e mt) = Return results) /\
  (forall collected,
      Permutation collected results ->
      value_of (aggregate (map Return collected)) = Return results).
Proof.
  intros H. split; [|split].
  - apply (scan_ports_strictly_sorted _ _ _ _ _ _ H).
  - intros sched. now apply scan_ports_any_schedule.
  - intros collected. apply aggregate_permutation.
    apply (scan_ports_strictly_sorted _ _ _ _ _ _ H).
Qed.

Lemma scan_ports_sorted_in_any_order_witness :
  value_of (scan_ports Lab.world "127.0.0.1" 7000 7002 100)
  = Return [(7000%Z, "Closed"); (7001%Z, "Open"); (7002%Z, "Closed")] /\
  (StronglySorted (fun a b => (fst a < fst b)%Z)
     [(7000%Z, "Closed"); (7001%Z, "Open"); (7002%Z, "Closed")] /\
   (forall sched,
      value_of (scan_ports (with_schedule Lab.world sched) "127.0.0.1" 7000 7002 100)
      = Return [(7000%Z, "Closed"); (7001%Z, "Open"); (7002%Z, "Closed")]) /\
   (forall collected,
      Permutation collected [(7000%Z, "Closed"); (7001%Z, "Open"); (7002%Z, "Closed")] ->
      value_of (aggregate (map Return collected))
      = Return [(7000%Z, "Closed"); (7001%Z, "Open"); (7002%Z, "Closed")])).
Proof.
  split; [vm_compute; reflexivity|].
  apply (scan_ports_sorted_in_any_order Lab.world "127.0.0.1" 7000 7002 100).
  vm_compute. reflexivity.
Defined.

(** ** C3 *)

(** C3, as stated, fails: when the timeout expires [connect_ex] returns a
    non-zero error indicator instead of raising, and [scan_port] reports
    'Closed', not 'Error'. *)
Lemma scan_port_timeout_is_not_Error :
  value_of (scan_port Net.timed_out "10.255.255.1" 80 1) = Return (80%Z, "Closed")
  /\ value_of (scan_port Net.timed_out "10.255.255.1" 80 1) <> Return (80%Z, "Error").
Proof. split; [reflexivity | discriminate]. Qed.

(** C3, amended. [scan_port] reports 'Open' exactly when no socket call
    raises and [connect_ex] returns 0; 'Closed' exactly when no socket call
    raises and [connect_ex] returns a non-zero error indicator, which covers
    an explicit refusal but also timeout expiry and an unreachable network;
    and 'Error' exactly when a socket call raises a [socket.error], as
    [socket.socket] does when no descriptor is left. An exception of another
    class is not turned into a status: it leaves [scan_port]. *)
Theorem scan_port_classification (env : probe_env) (ip : string) (port : Z)
    (timeout : Q) :
  (value_of (scan_port env ip port timeout) = Return (port, "Open") <->
   first_raised env = None /\ on_connect_ex env = inr 0%Z) /\
  (value_of (scan_port env ip port timeout) = Return (port, "Closed") <->
   first_raised env = None /\
   exists code, code <> 0%Z /\ on_connect_ex env = inr code) /\
  (value_of (scan_port env ip port timeout) = Return (port, "Error") <->
   exists e, first_raised env = Some e /\ is_socket_error e = true) /\
  (forall e,
      value_of (scan_port env ip port timeout) = Raise e <->
      first_raised env = Some e /\ is_socket_error e = false) /\
  value_of (scan_port Net.listening ip port timeout) = Return (port, "Open") /\
  value_of (scan_port Net.refused ip port timeout) = Return (port, "Closed") /\
  value_of (scan_port Net.timed_out ip port timeout) = Return (port, "Closed") /\
  value_of (scan_port Net.unreachable ip port timeout) = Return (port, "Closed") /\
  value_of (scan_port Net.no_descriptors ip port timeout) = Return (port, "Error").
Proof.
  assert (Hcaught : forall e : exn,
    (caught port e = Return (port, "Open") <-> False) /\
    (caught port e = Return (port, "Closed") <-> False) /\
    (caught port e = Return (port, "Error") <-> is_socket_error e = true) /\
    (forall e', caught port e = Raise e' <-> e = e' /\ is_socket_error e = false)).
  { intros e. unfold caught. destruct (is_socket_error e).
    - split; [split; [discriminate | tauto]|].
      split; [split; [discriminate | tauto]|].
      split; [split; reflexivity|].
      intros e'. split; [discriminate | intros [_ H]; discriminate H].
    - split; [split; [discriminate | tauto]|].
      split; [split; [discriminate | tauto]|].
      split; [split; discriminate|].
      intros e'. split; [intros [= ->]; auto | intros [-> _]; reflexivity]. }
  assert (Hraised : forall e : exn, first_raised env = Some e ->
    value_of (scan_port env ip port timeout) = caught port e).
  { intros e. rewrite scan_port_value. unfold first_raised.
    destruct (on_socket env) as [e1|];
      [|destruct (on_settimeout env) as [e2|];
        [|destruct (on_connect_ex env) as [e3|code]]];
      try discriminate; now intros [= ->]. }
  assert (Hnone : forall code, first_raised env = None ->
    on_connect_ex env = inr code ->
    value_of (scan_port env ip port timeout)
    = Return (port, if (code =? 0)%Z then "Open" else "Closed")).
  { intros code. rewrite scan_port_value. unfold first_raised.
    destruct (on_socket env) as [e1|];
      [|destruct (on_settimeout env) as [e2|];
        [|destruct (on_connect_ex env) as [e3|code']]];
      try discriminate. now intros _ [= ->]. }
  assert (Hcases : (exists e, first_raised env = Some e) \/
                   (first_raised env = None /\ exists code, on_connect_ex env = inr code)).
  { unfold first_raised.
    destruct (on_socket env) as [e1|];
      [|destruct (on_settimeout env) as [e2|];
        [|destruct (on_connect_ex env) as [e3|code]]]; eauto. }
  split; [|split; [|split; [|split]]].
  - destruct Hcases as [[e He]|[Hn [code Hc]]].
    + rewrite (Hraised e He), He.
      destruct (Hcaught e) as (H & _). rewrite H.
      split; [tauto | intros [H' _]; discriminate H'].
    + rewrite (Hnone code Hn Hc), Hc.
      destruct (Z.eqb_spec code 0) as [->|Hne].
      * tauto.
      * split; [discriminate | intros [_ [= H]]; contradiction].
  - destruct Hcases as [[e He]|[Hn [code Hc]]].
    + rewrite (Hraised e He), He.
      destruct (Hcaught e) as (_ & H & _). rewrite H.
      split; [tauto | intros [H' _]; discriminate H'].
    + rewrite (Hnone code Hn Hc), Hc.
      destruct (Z.eqb_spec code 0) as [->|Hne].
      * split; [discriminate|].
        intros [_ [code' [Hne' [= <-]]]]. contradiction.
      * split; [|reflexivity]. intros _. split; [exact Hn|].
        exists code. auto.
  - destruct Hcases as [[e He]|[Hn [code Hc]]].
    + rewrite (Hraised e He), He.
      destruct (Hcaught e) as (_ & _ & H & _). rewrite H.
      split; [eauto | now intros [e' [[= <-] H']]].
    + rewrite (Hnone code Hn Hc), Hn.
      split; [destruct (code =? 0)%Z; discriminate|].
      intros [e [H' _]]. discriminate H'.
  - intros e'. destruct Hcases as [[e He]|[Hn [code Hc]]].
    + rewrite (Hraised e He), He.
      destruct (Hcaught e) as (_ & _ & _ & H). rewrite H.
      split; [intros [-> H']; auto | intros [[= ->] H']; auto].
    + rewrite (Hnone code Hn Hc), Hn.
      split; [discriminate | intros [H' _]; discriminate H'].
  - repeat split; rewrite scan_port_value; reflexivity.
Qed.

Lemma scan_port_classification_witness :
  (first_raised Net.refused = None /\
   exists code, code <> 0%Z /\ on_connect_ex Net.refused = inr code) /\
  value_of (scan_port Net.refused "127.0.0.1" 7000 1) = Return (7000%Z, "Closed").
Proof.
  assert (H : first_raised Net.refused = None /\
              exists code, code <> 0%Z /\ on_connect_ex Net.refused = inr code).
  { split; [reflexivity|]. exists 111%Z. split; [discriminate | reflexivity]. }
  split; [exact H|].
  exact (proj2 (proj1 (proj2
           (scan_port_classification Net.refused "127.0.0.1" 7000 1))) H).
Defined.

(** ** C4 *)

(** C4 fails on the path where [connect_ex] raises. An IPv6 literal passes
    [validate_ip], but the socket is an [AF_INET] one, so [connect_ex] raises
    [socket.gaierror]; the handler returns 'Error' and [sock.close()] is
    skipped: one socket was opened and none was closed. *)
Theorem scan_port_skips_close_when_connect_raises :
  value_of (scan_port Net.wrong_family "::1" 80 scan_port_default_timeout)
  = Return (80%Z, "Error") /\
  log_of (scan_port Net.wrong_family "::1" 80 scan_port_default_timeout)
  = [EvSocket; EvSetTimeout 1; EvConnectEx "::1" 80] /\
  sockets_opened
    (log_of (scan_port Net.wrong_family "::1" 80 scan_port_default_timeout)) = 1%nat /\
  sockets_closed
    (log_of (scan_port Net.wrong_family "::1" 80 scan_port_default_timeout)) = 0%nat.
Proof. repeat split. Qed.

(** The same happens whenever [connect_ex] raises. *)
Lemma scan_port_open_socket_when_connect_raises (env : probe_env)
    (ip : string) (port : Z) (t : Q) (e : exn) :
  on_socket env = None -> on_settimeout env = None ->
  on_connect_ex env = inl e ->
  sockets_opened (log_of (scan_port env ip port t)) = 1%nat /\
  sockets_closed (log_of (scan_port env ip port t)) = 0%nat.
Proof.
  intros H1 H2 H3. rewrite scan_port_log, H1, H2, H3. split; reflexivity.
Qed.

(** On the paths where [connect_ex] returns, the timeout path included, the
    one socket that was opened is closed. *)
Lemma scan_port_closes_when_connect_returns (env : probe_env) (ip : string)
    (port : Z) (t : Q) (code : Z) :
  on_socket env = None -> on_settimeout env = None ->
  on_connect_ex env = inr code ->
  sockets_opened (log_of (scan_port env ip port t)) = 1%nat /\
  sockets_closed (log_of (scan_port env ip port t)) = 1%nat.
Proof.
  intros H1 H2 H3. rewrite scan_port_log, H1, H2, H3. split; reflexivity.
Qed.

(** ** C10 *)

(** C10. [scan_port] never lets a [socket.error] reach its caller, and when
    the socket calls raise nothing but [socket.error]s it returns a pair:
    the port it was given, unchanged, with one of the three strings 'Open',
    'Closed' and 'Error'. *)
Theorem scan_port_total (env : probe_env) (ip : string) (port : Z) (timeout : Q) :
  raises_only_socket_errors env = true ->
  (forall e, value_of (scan_port env ip port timeout) = Raise e ->
             is_socket_error e = false) /\
  exists status,
    value_of (scan_port env ip port timeout) = Return (port, status) /\
    In status ["Open"; "Closed"; "Error"].
Proof.
  intros Henv. split.
  - intros e. apply scan_port_raise_not_socket_error.
  - destruct (scan_port_only_socket_errors env ip port timeout Henv) as [status Hs].
    exists status. split; [exact Hs|].
    apply scan_port_returns_port in Hs. apply Hs.
Qed.

(** Outside that case an exception of another class passes through
    [except socket.error] unchanged. *)
Example scan_port_propagates_OverflowError :
  value_of (scan_port Net.bad_port "127.0.0.1" 70000 1)
  = Raise (Exn OverflowError "connect_ex(): port must be 0-65535.").
Proof. reflexivity. Qed.

Lemma scan_port_total_witness :
  raises_only_socket_errors Net.wrong_family = true /\
  ((forall e, value_of (scan_port Net.wrong_family "::1" 443 (1 # 2)) = Raise e ->
              is_socket_error e = false) /\
   exists status,
     value_of (scan_port Net.wrong_family "::1" 443 (1 # 2))
     = Return (443%Z, status) /\
     In status ["Open"; "Closed"; "Error"]).
Proof.
  split; [reflexivity|].
  apply (scan_port_total Net.wrong_family "::1" 443 (1 # 2)). reflexivity.
Defined.

(** ** C5 *)






(** ** C6 *)

Lemma timeouts_of_app (l1 l2 : list event) :
  timeouts_of (l1 ++ l2) = timeouts_of l1 ++ timeouts_of l2.
Proof.
  induction l1 as [|ev l1 IH]; simpl; [reflexivity|].
  destruct ev; simpl; now rewrite IH.
Qed.

Lemma timeouts_of_In (t : Q) (log : list event) :
  In (EvSetTimeout t) log -> In t (timeouts_of log).
Proof.
  induction log as [|ev log IH]; simpl; [tauto|].
  intros [->|H]; [now left|].
  destruct ev; simpl; auto.
Qed.

Lemma scan_port_timeouts (env : probe_env) (ip : string) (port : Z) (t : Q) :
  timeouts_of (log_of (scan_port env ip port t)) =
  match on_socket env with
  | None => [t]
  | Some _ => []
  end.
Proof.
  rewrite scan_port_log.
  destruct (on_socket env), (on_settimeout env), (on_connect_ex env); reflexivity.
Qed.

Lemma scan_ports_timeouts (w : world) (ip : string) (s e mt : Z) :
  Forall (fun t => t = scan_port_default_timeout)
         (timeouts_of (log_of (scan_ports w ip s e mt))).
Proof.
  rewrite scan_ports_log. destruct (mt <=? 0)%Z; [constructor|].
  induction (completion_order w s e mt) as [|port order IH]; simpl.
  - constructor.
  - rewrite timeouts_of_app. apply Forall_app. split; [|exact IH].
    unfold probe. rewrite scan_port_timeouts.
    destruct (on_socket _); repeat constructor.
Qed.

(** C6, as stated, fails: no arguments of [scan_ports] make a probe run with
    a timeout of 5 seconds. *)
Lemma scan_ports_timeout_not_configurable :
  ~ (forall t : Q, exists w ip s e mt,
        In (EvSetTimeout t) (log_of (scan_ports w ip s e mt))).
Proof.
  intros H. destruct (H (5 # 1)) as (w & ip & s & e & mt & Hin).
  apply timeouts_of_In in Hin.
  pose proof (scan_ports_timeouts w ip s e mt) as Hall.
  rewrite Forall_forall in Hall. apply Hall in Hin. discriminate Hin.
Qed.

(** C6, amended. [scan_ports] takes no timeout: every probe it dispatches
    sets the default timeout of [scan_port], one second. [scan_port] itself
    sets the timeout it is given. *)
Theorem scan_ports_uses_default_timeout (w : world) (ip : string) (s e mt : Z) :
  Forall (fun t => t = scan_port_default_timeout)
         (timeouts_of (log_of (scan_ports w ip s e mt))) /\
  scan_port_default_timeout = 1%Q /\
  (forall env port t,
      timeouts_of (log_of (scan_port env ip port t)) =
      match on_socket env with
      | None => [t]
      | Some _ => []
      end).
Proof.
  split; [apply scan_ports_timeouts|].
  split; [reflexivity|].
  intros env port t. apply scan_port_timeouts.
Qed.

(** ** main, unfolded *)

Lemma validate_ip_run (w : world) (ip : string) (log : list event) :
  validate_ip w ip log = (Return (ip_literal w ip), log).
Proof.
  unfold validate_ip, ipaddress_ip_address, try_except, bind, ret, raise.
  destruct (ip_literal w ip); reflexivity.
Qed.

Lemma main_run (w : world) (ip : string) (s e mt : Z) (log : list event) :
  main w ip s e mt log =
  if negb (ip_literal w ip) then print (msg_invalid_ip ip) log
  else if range_invalid s e then print msg_invalid_range log
  else (print (msg_scanning ip s e) ;;; report w ip s e mt) log.
Proof.
  unfold main, range_invalid, report.
  unfold bind at 1. rewrite validate_ip_run.
  destruct (negb (ip_literal w ip)); [reflexivity|].
  destruct ((s <? 1)%Z || (e >? 65535)%Z || (s >? e)%Z); reflexivity.
Qed.

Lemma printed_app (l1 l2 : list event) :
  printed (l1 ++ l2) = printed l1 ++ printed l2.
Proof.
  induction l1 as [|ev l1 IH]; simpl; [reflexivity|].
  destruct ev; simpl; now rewrite IH.
Qed.

Lemma printed_scan_port (env : probe_env) (ip : string) (port : Z) (t : Q) :
  printed (log_of (scan_port env ip port t)) = [].
Proof.
  rewrite scan_port_log.
  destruct (on_socket env), (on_settimeout env), (on_connect_ex env); reflexivity.
Qed.

Lemma printed_scan_ports (w : world) (ip : string) (s e mt : Z) :
  printed (log_of (scan_ports w ip s e mt)) = [].
Proof.
  rewrite scan_ports_log. destruct (mt <=? 0)%Z; [reflexivity|].
  induction (completion_order w s e mt) as [|port order IH]; simpl.
  - reflexivity.
  - rewrite printed_app, IH. unfold probe. now rewrite printed_scan_port.
Qed.

Lemma for_each_rows (results : list outcome) :
  value_of (for_each results
    (fun '(port, status) =>
       if (status =? "Open")%string then print (table_row port status)
       else ret tt)) = Return tt /\
  printed (log_of (for_each results
    (fun '(port, status) =>
       if (status =? "Open")%string then print (table_row port status)
       else ret tt)))
  = map (fun o => table_row (fst o) "Open") (filter is_open results).
Proof.
  set (body := fun '(port, status) =>
       if (status =? "Open")%string then print (table_row port status)
       else ret tt).
  assert (Hbody : forall x : outcome, steady (body x)).
  { intros [port status]. unfold body. auto with steady. }
  induction results as [|[port status] results [IHv IHl]]; simpl.
  - split; reflexivity.
  - rewrite value_of_bind, log_of_bind by auto with steady.
    unfold is_open. simpl.
    destruct (String.eqb_spec status "Open") as [->|Hne]; simpl.
    + split; [exact IHv|]. now rewrite IHl.
    + split; [exact IHv|]. exact IHl.
Qed.

Lemma display_results_printed (results : list outcome) :
  value_of (display_results results) = Return tt /\
  printed (log_of (display_results results))
  = table_header :: table_rule
      :: map (fun o => table_row (fst o) "Open") (filter is_open results).
Proof.
  destruct (for_each_rows results) as [Hv Hl].
  unfold display_results.
  assert (Hsteady : steady (for_each results
    (fun '(port, status) =>
       if (status =? "Open")%string then print (table_row port status)
       else ret tt))).
  { apply steady_for_each. intros [port status]. auto with steady. }
  rewrite !value_of_bind, !log_of_bind by auto with steady.
  simpl. rewrite Hv. split; [reflexivity|]. now rewrite Hl.
Qed.

Lemma filter_idem {A} (f : A -> bool) (l : list A) :
  filter f (filter f l) = filter f l.
Proof.
  induction l as [|x l IH]; simpl; [reflexivity|].
  destruct (f x) eqn:Hfx; simpl; [now rewrite Hfx, IH | exact IH].
Qed.

Lemma steady_report (w : world) (ip : string) (s e mt : Z) :
  steady (report w ip s e mt).
Proof.
  unfold report. apply steady_try_except; [|auto with steady].
  apply steady_bind; [auto with steady|]. intros results. cbv zeta.
  destruct (filter is_open results); auto with steady.
Qed.

Lemma report_printed (w : world) (ip : string) (s e mt : Z) :
  value_of (report w ip s e mt) = Return tt /\
  printed (log_of (report w ip s e mt))
  = report_lines ip s e (value_of (scan_ports w ip s e mt)).
Proof.
  assert (Hk : forall results : list outcome,
    steady (let open_ports := filter is_open results in
            match open_ports with
            | _ :: _ => print msg_open_ports_found ;;; display_results open_ports
            | [] => print (msg_no_open_ports s e)
            end)).
  { intros results. cbv zeta. destruct (filter is_open results); auto with steady. }
  unfold report.
  rewrite value_of_try_except, log_of_try_except by auto with steady.
  rewrite value_of_bind, log_of_bind by auto with steady.
  rewrite !printed_app, printed_scan_ports.
  destruct (value_of (scan_ports w ip s e mt)) as [results|err] eqn:Hscan.
  - unfold report_lines. cbv zeta.
    destruct (filter is_open results) as [|o opens] eqn:Hopen.
    + rewrite value_of_print, log_of_print. split; reflexivity.
    + destruct (display_results_printed (o :: opens)) as [Hv Hl].
      rewrite value_of_bind, log_of_bind by auto with steady.
      rewrite value_of_print, log_of_print, Hv.
      split; [reflexivity|].
      rewrite !printed_app, Hl.
      rewrite <- Hopen, filter_idem. simpl. now rewrite app_nil_r.
  - unfold is_Exception. rewrite value_of_print, log_of_print.
    split; reflexivity.
Qed.

Lemma main_printed (w : world) (ip : string) (s e mt : Z) :
  value_of (main w ip s e mt) = Return tt /\
  printed (log_of (main w ip s e mt)) =
  if negb (ip_literal w ip) then [msg_invalid_ip ip]
  else if range_invalid s e then [msg_invalid_range]
  else msg_scanning ip s e
         :: report_lines ip s e (value_of (scan_ports w ip s e mt)).
Proof.
  unfold value_of at 1, log_of at 1. rewrite main_run.
  destruct (negb (ip_literal w ip)); [split; reflexivity|].
  destruct (range_invalid s e); [split; reflexivity|].
  pose proof (steady_report w ip s e mt) as Hst.
  destruct (report_printed w ip s e mt) as [Hv Hl].
  rewrite bind_run by auto with steady.
  simpl. rewrite Hv. split; [reflexivity|]. now rewrite Hl.
Qed.

(** ** C8 *)

(** C8, as stated, fails: [main] reports the invalid address and returns;
    the script then runs to its end and the exit status is 0. *)
Lemma main_invalid_address_exits_with_zero :
  ip_literal Lab.world "999.999.999.999" = false /\
  ~ (exit_status (value_of (main Lab.world "999.999.999.999" 1 1024 100)) <> 0%Z).
Proof. split; [reflexivity|]. intros H. apply H. reflexivity. Qed.

(** C8, amended. With an invalid address literal, or a port range with
    [start_port < 1], [end_port > 65535] or [start_port > end_port], [main]
    prints one error message and nothing else, dispatches no probe and opens
    no socket, and returns normally, so that the exit status is 0. *)
Theorem main_rejects_invalid_input (w : world) (ip : string) (s e mt : Z) :
  ip_literal w ip = false \/ (s < 1)%Z \/ (e > 65535)%Z \/ (s > e)%Z ->
  exists msg,
    String.prefix "Error: Invalid " msg = true /\
    log_of (main w ip s e mt) = [EvPrint msg] /\
    sockets_opened (log_of (main w ip s e mt)) = 0%nat /\
    value_of (main w ip s e mt) = Return tt /\
    exit_status (value_of (main w ip s e mt)) = 0%Z.
Proof.
  intros H. unfold value_of, log_of. rewrite main_run.
  destruct (ip_literal w ip) eqn:Hip; simpl negb; cbv iota.
  - assert (Hr : range_invalid s e = true).
    { unfold range_invalid.
      destruct H as [H|[H|[H|H]]]; [discriminate| | |].
      - apply Z.ltb_lt in H. now rewrite H.
      - apply Z.gtb_gt in H. rewrite H. now rewrite orb_true_r.
      - apply Z.gtb_gt in H. rewrite H. now rewrite orb_true_r. }
    rewrite Hr. exists msg_invalid_range. repeat split.
  - exists (msg_invalid_ip ip). repeat split.
Qed.

Lemma main_rejects_invalid_input_witness :
  (ip_literal Lab.world "127.0.0.1" = false \/ (7002 < 1)%Z \/ (7000 > 65535)%Z
   \/ (7002 > 7000)%Z) /\
  exists msg,
    String.prefix "Error: Invalid " msg = true /\
    log_of (main Lab.world "127.0.0.1" 7002 7000 100) = [EvPrint msg] /\
    sockets_opened (log_of (main Lab.world "127.0.0.1" 7002 7000 100)) = 0%nat /\
    value_of (main Lab.world "127.0.0.1" 7002 7000 100) = Return tt /\
    exit_status (value_of (main Lab.world "127.0.0.1" 7002 7000 100)) = 0%Z.
Proof.
  assert (H : ip_literal Lab.world "127.0.0.1" = false \/ (7002 < 1)%Z
              \/ (7000 > 65535)%Z \/ (7002 > 7000)%Z)
    by (right; right; right; lia).
  split; [exact H|].
  exact (main_rejects_invalid_input Lab.world "127.0.0.1" 7002 7000 100 H).
Defined.

(** ** C9 *)

Lemma str_of_Z_head (n : Z) :
  exists c rest, In c sign_or_digit /\ str_of_Z n = String c rest.
Proof.
  unfold str_of_Z, NilZero.string_of_int.
  destruct (Z.to_int n) as [d|d].
  - destruct d; simpl; eexists; eexists; (split; [|reflexivity]);
      unfold sign_or_digit; simpl; tauto.
  - eexists; eexists; (split; [|reflexivity]).
    unfold sign_or_digit; simpl; tauto.
Qed.

Lemma table_row_head (port : Z) (status : string) :
  exists c rest, In c sign_or_digit /\ table_row port status = String c rest.
Proof.
  destruct (str_of_Z_head port) as (c & rest & Hc & Hs).
  unfold table_row, ljust. rewrite Hs. simpl.
  eexists; eexists; split; [exact Hc | reflexivity].
Qed.

Lemma rows_show_nothing (p : string -> bool) (opens : list outcome) :
  (forall c rest, In c sign_or_digit -> p (String c rest) = false) ->
  existsb p (map (fun o => table_row (fst o) "Open") opens) = false.
Proof.
  intros Hp. induction opens as [|o opens IH]; simpl; [reflexivity|].
  destruct (table_row_head (fst o) "Open") as (c & rest & Hc & ->).
  now rewrite (Hp c rest Hc), IH.
Qed.

Lemma behaviours_invalid_ip (ip : string) :
  behaviours [msg_invalid_ip ip] = [ValidationError].
Proof. reflexivity. Qed.

Lemma behaviours_invalid_range : behaviours [msg_invalid_range] = [ValidationError].
Proof. reflexivity. Qed.

Lemma behaviours_scan_error (ip : string) (s e : Z) (err : exn) :
  behaviours [msg_scanning ip s e; msg_scan_error err] = [ScanError].
Proof.
  unfold behaviours, shows. cbn.
  destruct (exn_str err); reflexivity.
Qed.

Lemma behaviours_no_open_ports (ip : string) (s e : Z) :
  behaviours [msg_scanning ip s e; msg_no_open_ports s e] = [NoOpenPorts].
Proof. reflexivity. Qed.

Lemma behaviours_table (ip : string) (s e : Z) (opens : list outcome) :
  behaviours (msg_scanning ip s e :: msg_open_ports_found :: table_header
                :: table_rule :: map (fun o => table_row (fst o) "Open") opens)
  = [OpenTable].
Proof.
  unfold behaviours, shows.
  cbn [filter existsb].
  rewrite !rows_show_nothing by by_first_char.
  reflexivity.
Qed.

Lemma filter_strongly_sorted {A} (R : A -> A -> Prop) (f : A -> bool) (l : list A) :
  StronglySorted R l -> StronglySorted R (filter f l).
Proof.
  induction 1 as [|x l Hs IH Hx]; simpl; [constructor|].
  destruct (f x); [|exact IH].
  constructor; [exact IH|].
  rewrite Forall_forall in *. intros y Hy.
  apply filter_In in Hy as [Hy _]. apply Hx, Hy.
Qed.

(** C9, as stated, fails: with [--threads 0] the executor cannot be built
    and [main] prints its scan-failure message, which is none of the three
    behaviours. *)
Lemma main_scan_failure_is_a_fourth_behaviour :
  printed (log_of (main Lab.world "127.0.0.1" 7000 7002 0))
  = ["Scanning 127.0.0.1 from port 7000 to 7002...";
     "Error during scanning: max_workers must be greater than 0"] /\
  ~ (exists b, In b [ValidationError; NoOpenPorts; OpenTable] /\
               shows (printed (log_of (main Lab.world "127.0.0.1" 7000 7002 0))) b
               = true).
Proof.
  split; [vm_compute; reflexivity|].
  intros [b [Hb Hshow]].
  destruct Hb as [<-|[<-|[<-|[]]]]; vm_compute in Hshow; discriminate Hshow.
Qed.

Lemma behaviours_single (out : list string) (b b' : behaviour) :
  behaviours out = [b] -> shows out b' = true -> b' = b.
Proof.
  intros Hb Hs.
  assert (Hin : In b' (behaviours out)).
  { unfold behaviours. apply filter_In. split; [|exact Hs].
    destruct b'; simpl; tauto. }
  rewrite Hb in Hin. destruct Hin as [<-|[]]. reflexivity.
Qed.

Lemma is_open_Open (results : list outcome) :
  Forall (fun o => snd o = "Open") (filter is_open results).
Proof.
  rewrite Forall_forall. intros o Ho.
  apply filter_In in Ho as [_ Ho]. now apply String.eqb_eq in Ho.
Qed.

(** C9, amended. Each invocation shows exactly one of four behaviours: a
    validation error message, a scan-failure message, a "no open ports"
    message, or a table of open ports. The rows of the table are the
    outcomes of the scan whose status is 'Open', and only those, in
    ascending port order. *)
Theorem main_behaviours (w : world) (ip : string) (s e mt : Z) :
  (exists b, behaviours (printed (log_of (main w ip s e mt))) = [b]) /\
  (shows (printed (log_of (main w ip s e mt))) OpenTable = true ->
   exists results,
     value_of (scan_ports w ip s e mt) = Return results /\
     printed (log_of (main w ip s e mt))
     = msg_scanning ip s e :: msg_open_ports_found :: table_header :: table_rule
         :: map (fun o => table_row (fst o) "Open") (filter is_open results) /\
     filter is_open results <> [] /\
     Forall (fun o => snd o = "Open") (filter is_open results) /\
     StronglySorted (fun a b => (fst a < fst b)%Z) (filter is_open results)).
Proof.
  destruct (main_printed w ip s e mt) as [_ Hout]. rewrite Hout. clear Hout.
  destruct (negb (ip_literal w ip)).
  { split; [eexists; apply behaviours_invalid_ip|].
    intros H. apply (behaviours_single _ _ _ (behaviours_invalid_ip ip)) in H.
    discriminate H. }
  destruct (range_invalid s e).
  { split; [eexists; apply behaviours_invalid_range|].
    intros H. apply (behaviours_single _ _ _ behaviours_invalid_range) in H.
    discriminate H. }
  unfold report_lines.
  destruct (value_of (scan_ports w ip s e mt)) as [results|err] eqn:Hscan.
  - destruct (filter is_open results) as [|o opens] eqn:Hopen.
    + split; [eexists; apply behaviours_no_open_ports|].
      intros H. apply (behaviours_single _ _ _ (behaviours_no_open_ports ip s e)) in H.
      discriminate H.
    + rewrite <- Hopen.
      split; [eexists; apply behaviours_table|].
      intros _. exists results. split; [reflexivity|]. split; [reflexivity|].
      split; [rewrite Hopen; discriminate|].
      split; [apply is_open_Open|].
      apply filter_strongly_sorted.
      apply (scan_ports_strictly_sorted _ _ _ _ _ _ Hscan).
  - split; [eexists; apply behaviours_scan_error|].
    intros H. apply (behaviours_single _ _ _ (behaviours_scan_error ip s e err)) in H.
    discriminate H.
Qed.

Lemma main_behaviours_witness :
  shows (printed (log_of (main Lab.world "127.0.0.1" 7000 7002 100))) OpenTable = true /\
  exists results,
    value_of (scan_ports Lab.world "127.0.0.1" 7000 7002 100) = Return results /\
    printed (log_of (main Lab.world "127.0.0.1" 7000 7002 100))
    = msg_scanning "127.0.0.1" 7000 7002 :: msg_open_ports_found :: table_header
        :: table_rule
        :: map (fun o => table_row (fst o) "Open") (filter is_open results) /\
    filter is_open results <> [] /\
    Forall (fun o => snd o = "Open") (filter is_open results) /\
    StronglySorted (fun a b => (fst a < fst b)%Z) (filter is_open results).
Proof.
  split; [vm_compute; reflexivity|].
  apply (proj2 (main_behaviours Lab.world "127.0.0.1" 7000 7002 100)).
  vm_compute. reflexivity.
Defined.

(** * Further properties of the code *)

(** ** scan_port *)

(** X1. Whatever the environment answers, the socket calls of [scan_port]
    are an initial part of: create, set the timeout, connect once to the
    given address and port, close. So at most one socket is opened, at most
    one connection is attempted (no retry), and nothing is closed that was
    not opened. *)
Theorem scan_port_call_discipline (env : probe_env) (ip : string) (port : Z)
    (t : Q) :
  (exists n, log_of (scan_port env ip port t) = firstn n (probe_calls ip port t)) /\
  (sockets_closed (log_of (scan_port env ip port t))
   <= sockets_opened (log_of (scan_port env ip port t)) <= 1)%nat /\
  (connect_attempts (log_of (scan_port env ip port t)) = [] \/
   connect_attempts (log_of (scan_port env ip port t)) = [(ip, port)]).
Proof.
  rewrite scan_port_log. unfold probe_calls.
  destruct (on_socket env) as [e1|];
    [|destruct (on_settimeout env) as [e2|];
      [|destruct (on_connect_ex env) as [e3|code]]].
  - split; [exists 0%nat; reflexivity|].
    split; [unfold sockets_closed, sockets_opened; simpl; lia | now left].
  - split; [exists 2%nat; reflexivity|].
    split; [unfold sockets_closed, sockets_opened; simpl; lia | now left].
  - split; [exists 3%nat; reflexivity|].
    split; [unfold sockets_closed, sockets_opened; simpl; lia | now right].
  - split; [exists 4%nat; reflexivity|].
    split; [unfold sockets_closed, sockets_opened; simpl; lia | now right].
Qed.

(** X2. [scan_port] never reports a false 'Open': it returns 'Open' exactly
    when the socket was created, the timeout set and [connect_ex] returned
    0, and in that case the socket has been closed again. *)
Theorem scan_port_Open_iff (env : probe_env) (ip : string) (port : Z) (t : Q) :
  (value_of (scan_port env ip port t) = Return (port, "Open") <->
   on_socket env = None /\ on_settimeout env = None /\
   on_connect_ex env = inr 0%Z) /\
  (value_of (scan_port env ip port t) = Return (port, "Open") ->
   log_of (scan_port env ip port t) = probe_calls ip port t).
Proof.
  rewrite scan_port_value, scan_port_log. unfold caught, probe_calls.
  destruct (on_socket env) as [e1|];
    [|destruct (on_settimeout env) as [e2|];
      [|destruct (on_connect_ex env) as [e3|code]]].
  - split; [split|]; [| intros (H & _); discriminate H |];
      destruct (is_socket_error e1); discriminate.
  - split; [split|]; [| intros (_ & H & _); discriminate H |];
      destruct (is_socket_error e2); discriminate.
  - split; [split|]; [| intros (_ & _ & H); discriminate H |];
      destruct (is_socket_error e3); discriminate.
  - split; [|reflexivity]. split.
    + destruct (Z.eqb_spec code 0) as [->|Hne]; [auto | discriminate].
    + intros (_ & _ & [= ->]). reflexivity.
Qed.

(** X17. Whenever [scan_port] reports 'Open' or 'Closed', it has made all
    four socket calls in order, the last being [close]: the socket it opened
    is closed again. *)
Theorem scan_port_closes_unless_Error (env : probe_env) (ip : string)
    (port : Z) (t : Q) (status : string) :
  value_of (scan_port env ip port t) = Return (port, status) ->
  status <> "Error" ->
  log_of (scan_port env ip port t) = probe_calls ip port t /\
  sockets_opened (log_of (scan_port env ip port t)) = 1%nat /\
  sockets_closed (log_of (scan_port env ip port t)) = 1%nat.
Proof.
  rewrite scan_port_value, scan_port_log. unfold caught, probe_calls.
  destruct (on_socket env) as [e1|];
    [|destruct (on_settimeout env) as [e2|];
      [|destruct (on_connect_ex env) as [e3|code]]];
    try (destruct (is_socket_error _); [|discriminate];
         intros [= <-] Hne; now elim Hne).
  intros _ _. repeat split.
Qed.

Lemma scan_port_closes_unless_Error_witness :
  value_of (scan_port Net.timed_out "10.255.255.1" 7000 (1 # 2))
  = Return (7000%Z, "Closed") /\
  "Closed" <> "Error" /\
  log_of (scan_port Net.timed_out "10.255.255.1" 7000 (1 # 2))
  = probe_calls "10.255.255.1" 7000 (1 # 2) /\
  sockets_opened (log_of (scan_port Net.timed_out "10.255.255.1" 7000 (1 # 2))) = 1%nat /\
  sockets_closed (log_of (scan_port Net.timed_out "10.255.255.1" 7000 (1 # 2))) = 1%nat.
Proof.
  assert (Hne : "Closed" <> "Error") by discriminate.
  split; [reflexivity|]. split; [exact Hne|].
  exact (scan_port_closes_unless_Error Net.timed_out "10.255.255.1" 7000 (1 # 2)
           "Closed" eq_refl Hne).
Defined.

(** ** scan_ports *)

(** X3. With [max_threads <= 0] the executor cannot be built: [scan_ports]
    raises [ValueError] before any probe runs, so no socket call is made. *)
Theorem scan_ports_rejects_nonpositive_threads (w : world) (ip : string)
    (s e mt : Z) :
  (mt <= 0)%Z ->
  value_of (scan_ports w ip s e mt)
  = Raise (Exn ValueError "max_workers must be greater than 0") /\
  log_of (scan_ports w ip s e mt) = [].
Proof.
  intros Hmt. rewrite scan_ports_value, scan_ports_log.
  destruct (Z.leb_spec mt 0); [split; reflexivity | lia].
Qed.

Lemma scan_ports_rejects_nonpositive_threads_witness :
  (-3 <= 0)%Z /\
  value_of (scan_ports Lab.world "127.0.0.1" 7000 7002 (-3))
  = Raise (Exn ValueError "max_workers must be greater than 0") /\
  log_of (scan_ports Lab.world "127.0.0.1" 7000 7002 (-3)) = [].
Proof.
  split; [lia|].
  apply (scan_ports_rejects_nonpositive_threads Lab.world "127.0.0.1" 7000 7002 (-3)).
  lia.
Defined.

Lemma range_empty (a b : Z) : (b <= a)%Z -> range a b = [].
Proof.
  intros H. unfold range. replace (Z.to_nat (b - a)) with 0%nat by lia.
  reflexivity.
Qed.

(** X4. An empty range ([end_port < start_port]) is not an error for
    [scan_ports] itself: with a working pool it returns the empty list and
    makes no socket call. *)
Theorem scan_ports_empty_range (w : world) (ip : string) (s e mt : Z) :
  (e < s)%Z -> (1 <= mt)%Z ->
  value_of (scan_ports w ip s e mt) = Return [] /\
  log_of (scan_ports w ip s e mt) = [].
Proof.
  intros Hes Hmt. rewrite scan_ports_value, scan_ports_log.
  destruct (Z.leb_spec mt 0); [lia|].
  unfold completion_order, as_completed.
  rewrite range_empty by lia. split; reflexivity.
Qed.

Lemma scan_ports_empty_range_witness :
  (7000 < 7002)%Z /\ (1 <= 100)%Z /\
  value_of (scan_ports Lab.world "127.0.0.1" 7002 7000 100) = Return [] /\
  log_of (scan_ports Lab.world "127.0.0.1" 7002 7000 100) = [].
Proof.
  split; [lia|]. split; [lia|].
  apply (scan_ports_empty_range Lab.world "127.0.0.1" 7002 7000 100); lia.
Defined.

Lemma all_results_In {A B} (f : A -> result B) (l : list A) :
  forall outs o,
    all_results (map f l) = Return outs -> In o outs ->
    exists x, In x l /\ f x = Return o.
Proof.
  induction l as [|x l IH]; intros outs o; simpl.
  - intros [= <-] [].
  - destruct (f x) as [b|err] eqn:Hfx; [|discriminate].
    destruct (all_results (map f l)) as [bs|err] eqn:Hl; [|discriminate].
    intros [= <-] [<-|Hin].
    + exists x. split; [now left | exact Hfx].
    + destruct (IH bs o eq_refl Hin) as (y & Hy & Hfy).
      exists y. split; [now right | exact Hfy].
Qed.

(** X5. Each entry of the list [scan_ports] returns is what [scan_port]
    itself returns for that port with the default timeout: the status of a
    port depends on its own probe only, not on the other ports or on the
    pool. *)
Theorem scan_ports_pointwise (w : world) (ip : string) (s e mt : Z)
    (results : list outcome) :
  value_of (scan_ports w ip s e mt) = Return results ->
  map fst results = range s (e + 1) /\
  (forall o, In o results ->
     value_of (scan_port (probe_of w ip (fst o)) ip (fst o)
                 scan_port_default_timeout) = Return o).
Proof.
  intros H. split; [apply (scan_ports_ports _ _ _ _ _ _ H)|].
  rewrite scan_ports_value in H.
  destruct (mt <=? 0)%Z; [discriminate|].
  destruct (all_results _) as [outs|err] eqn:Houts; [|discriminate].
  injection H as <-. intros o Ho.
  eapply Permutation_in in Ho; [|apply sort_by_perm].
  destruct (all_results_In _ _ _ _ Houts Ho) as (port & _ & Hport).
  unfold probe in Hport.
  pose proof (scan_port_returns_port _ _ _ _ _ Hport) as [Hfst _].
  rewrite Hfst. exact Hport.
Qed.

Lemma scan_ports_pointwise_witness :
  value_of (scan_ports Lab.world "127.0.0.1" 7000 7002 2)
  = Return [(7000%Z, "Closed"); (7001%Z, "Open"); (7002%Z, "Closed")] /\
  map fst [(7000%Z, "Closed"); (7001%Z, "Open"); (7002%Z, "Closed")]
  = range 7000 (7002 + 1) /\
  (forall o, In o [(7000%Z, "Closed"); (7001%Z, "Open"); (7002%Z, "Closed")] ->
     value_of (scan_port (probe_of Lab.world "127.0.0.1" (fst o)) "127.0.0.1"
                 (fst o) scan_port_default_timeout) = Return o).
Proof.
  split; [vm_compute; reflexivity|].
  apply (scan_ports_pointwise Lab.world "127.0.0.1" 7000 7002 2).
  vm_compute. reflexivity.
Defined.

Lemma connect_attempts_app (l1 l2 : list event) :
  connect_attempts (l1 ++ l2) = connect_attempts l1 ++ connect_attempts l2.
Proof.
  induction l1 as [|ev l1 IH]; simpl; [reflexivity|].
  destruct ev; simpl; now rewrite IH.
Qed.

Lemma sockets_opened_app (l1 l2 : list event) :
  sockets_opened (l1 ++ l2) = (sockets_opened l1 + sockets_opened l2)%nat.
Proof.
  unfold sockets_opened. now rewrite filter_app, length_app.
Qed.

Lemma sockets_closed_app (l1 l2 : list event) :
  sockets_closed (l1 ++ l2) = (sockets_closed l1 + sockets_closed l2)%nat.
Proof.
  unfold sockets_closed. now rewrite filter_app, length_app.
Qed.

Lemma probes_connect_attempts (w : world) (ip : string) (order : list Z) :
  forall target,
    In target (connect_attempts
                 (flat_map (fun port => log_of (probe w ip port)) order)) ->
    fst target = ip /\ In (snd target) order.
Proof.
  induction order as [|port order IH]; intros target; simpl; [intros []|].
  rewrite connect_attempts_app, in_app_iff. intros [H|H].
  - destruct (scan_port_call_discipline (probe_of w ip port) ip port
                scan_port_default_timeout) as (_ & _ & [Hc|Hc]);
      unfold probe in H; rewrite Hc in H; [destruct H|].
    destruct H as [<-|[]]. simpl. auto.
  - destruct (IH target H) as [Hip Hin]. auto.
Qed.

Lemma probes_connect_NoDup (w : world) (ip : string) (order : list Z) :
  NoDup order ->
  NoDup (connect_attempts (flat_map (fun port => log_of (probe w ip port)) order)).
Proof.
  induction 1 as [|port order Hnotin Hnd IH]; simpl; [constructor|].
  rewrite connect_attempts_app.
  destruct (scan_port_call_discipline (probe_of w ip port) ip port
              scan_port_default_timeout) as (_ & _ & [Hc|Hc]);
    unfold probe at 1; rewrite Hc; simpl; [exact IH|].
  constructor; [|exact IH].
  intros Hin. apply probes_connect_attempts in Hin as [_ Hin]. auto.
Qed.

Lemma probes_sockets (w : world) (ip : string) (order : list Z) :
  (sockets_closed (flat_map (fun port => log_of (probe w ip port)) order)
   <= sockets_opened (flat_map (fun port => log_of (probe w ip port)) order)
   <= List.length order)%nat.
Proof.
  induction order as [|port order IH]; simpl.
  - unfold sockets_closed, sockets_opened. simpl. lia.
  - rewrite sockets_opened_app, sockets_closed_app.
    destruct (scan_port_call_discipline (probe_of w ip port) ip port
                scan_port_default_timeout) as (_ & Hc & _).
    fold (probe w ip port) in Hc. lia.
Qed.

(** X7. [scan_ports] never touches anything outside its range: every
    connection attempt goes to the given address and to a port between
    [start_port] and [end_port], no port is attempted twice, and the number
    of sockets opened is at most the number of ports, with never more
    sockets closed than opened. *)
Theorem scan_ports_stays_in_range (w : world) (ip : string) (s e mt : Z) :
  (forall target,
      In target (connect_attempts (log_of (scan_ports w ip s e mt))) ->
      fst target = ip /\ (s <= snd target <= e)%Z) /\
  NoDup (connect_attempts (log_of (scan_ports w ip s e mt))) /\
  (sockets_closed (log_of (scan_ports w ip s e mt))
   <= sockets_opened (log_of (scan_ports w ip s e mt))
   <= Z.to_nat (e + 1 - s))%nat.
Proof.
  rewrite scan_ports_log.
  destruct (Z.leb_spec mt 0) as [Hle|Hgt].
  - split; [intros target []|]. split; [constructor|].
    unfold sockets_closed, sockets_opened. simpl. lia.
  - assert (Hperm : Permutation (completion_order w s e mt) (range s (e + 1)))
      by (apply completion_order_perm; lia).
    split; [|split].
    + intros target Hin. apply probes_connect_attempts in Hin as [Hip Hin].
      split; [exact Hip|].
      eapply Permutation_in in Hin; [|exact Hperm].
      apply range_In in Hin. lia.
    + apply probes_connect_NoDup.
      eapply Permutation_NoDup; [apply Permutation_sym, Hperm | apply range_NoDup].
    + pose proof (probes_sockets w ip (completion_order w s e mt)) as H.
      rewrite (Permutation_length Hperm), range_length in H. exact H.
Qed.

(** ** The aggregation loop and the sort *)

Lemma all_results_first_Raise {A} (done : list A) (err : exn)
    (rest : list (future A)) :
  all_results (map Return done ++ Raise err :: rest) = Raise err.
Proof.
  induction done as [|a done IH]; simpl; [reflexivity | now rewrite IH].
Qed.

(** X8. The collecting loop stops at the first future that holds an
    exception: that exception is raised, whatever the later futures hold,
    and the outcomes appended so far are not returned. *)
Theorem aggregate_first_failure (done : list outcome) (err : exn)
    (rest : list (future outcome)) :
  value_of (aggregate (map Return done ++ Raise err :: rest)) = Raise err.
Proof.
  now rewrite aggregate_value, all_results_first_Raise.
Qed.

Lemma sort_by_sorted_id {A} (key : A -> Z) (l : list A) :
  StronglySorted (key_le key) l -> sort_by key l = l.
Proof.
  induction 1 as [|x l Hs IH Hx]; simpl; [reflexivity|].
  rewrite IH. destruct l as [|y l']; simpl; [reflexivity|].
  apply Forall_inv in Hx. unfold key_le in Hx.
  destruct (Z.leb_spec (key x) (key y)); [reflexivity | lia].
Qed.

Lemma insert_by_filter {A} (key : A -> Z) (p : Z) (x : A) (l : list A) :
  StronglySorted (key_le key) l ->
  filter (fun a => (key a =? p)%Z) (insert_by key x l)
  = filter (fun a => (key a =? p)%Z) (x :: l).
Proof.
  induction 1 as [|y l Hs IH Hy]; simpl; [reflexivity|].
  destruct (Z.leb_spec (key x) (key y)) as [Hle|Hgt]; [reflexivity|].
  simpl. rewrite IH. simpl.
  destruct (Z.eqb_spec (key x) p) as [Hx|Hx];
    destruct (Z.eqb_spec (key y) p) as [Hy'|Hy']; try reflexivity.
  lia.
Qed.

Lemma sort_by_stable {A} (key : A -> Z) (p : Z) (l : list A) :
  filter (fun a => (key a =? p)%Z) (sort_by key l)
  = filter (fun a => (key a =? p)%Z) l.
Proof.
  induction l as [|x l IH]; simpl; [reflexivity|].
  rewrite insert_by_filter by apply sort_by_sorted.
  simpl. now rewrite IH.
Qed.

(** X9. For any collection of outcomes, duplicates of a port included, the
    aggregated list is in non-decreasing port order, the outcomes of one
    port keep the order in which they were collected, and aggregating the
    result again changes nothing. *)
Theorem aggregate_sorted_stable (outs : list outcome) :
  exists results,
    value_of (aggregate (map Return outs)) = Return results /\
    StronglySorted (fun a b => (fst a <= fst b)%Z) results /\
    (forall port,
        filter (fun o => (fst o =? port)%Z) results
        = filter (fun o => (fst o =? port)%Z) outs) /\
    value_of (aggregate (map Return results)) = Return results.
Proof.
  exists (sort_by fst outs).
  rewrite !aggregate_value, !all_results_Return.
  split; [reflexivity|]. split; [apply (sort_by_sorted fst)|].
  split; [intros port; apply sort_by_stable|].
  now rewrite (sort_by_sorted_id fst) by apply sort_by_sorted.
Qed.

(** ** display_results *)

Lemma for_each_rows_log (results : list outcome) :
  log_of (for_each results
    (fun '(port, status) =>
       if (status =? "Open")%string then print (table_row port status)
       else ret tt))
  = map (fun o => EvPrint (table_row (fst o) "Open")) (filter is_open results).
Proof.
  set (body := fun '(port, status) =>
       if (status =? "Open")%string then print (table_row port status)
       else ret tt).
  assert (Hbody : forall x : outcome, steady (body x)).
  { intros [port status]. unfold body. auto with steady. }
  induction results as [|[port status] results IH]; simpl; [reflexivity|].
  rewrite log_of_bind by auto with steady.
  unfold is_open. simpl.
  destruct (String.eqb_spec status "Open") as [->|Hne]; simpl.
  - now rewrite IH.
  - exact IH.
Qed.

(** X10. [display_results] always prints the header and the rule, also for
    an empty list; then one row for each outcome whose status is 'Open', in
    the order of the list, and nothing for the others. It prints and does
    nothing else, and it does not raise. *)
Theorem display_results_log (results : list outcome) :
  value_of (display_results results) = Return tt /\
  log_of (display_results results)
  = EvPrint table_header :: EvPrint table_rule
      :: map (fun o => EvPrint (table_row (fst o) "Open")) (filter is_open results).
Proof.
  split; [apply display_results_printed|].
  unfold display_results.
  assert (Hsteady : steady (for_each results
    (fun '(port, status) =>
       if (status =? "Open")%string then print (table_row port status)
       else ret tt))).
  { apply steady_for_each. intros [port status]. auto with steady. }
  rewrite !log_of_bind by auto with steady.
  rewrite !value_of_print, !log_of_print, for_each_rows_log. reflexivity.
Qed.

(** ** main *)

Lemma report_log (w : world) (ip : string) (s e mt : Z) :
  log_of (report w ip s e mt)
  = log_of (scan_ports w ip s e mt)
    ++ map EvPrint (report_lines ip s e (value_of (scan_ports w ip s e mt))).
Proof.
  assert (Hk : forall results : list outcome,
    steady (let open_ports := filter is_open results in
            match open_ports with
            | _ :: _ => print msg_open_ports_found ;;; display_results open_ports
            | [] => print (msg_no_open_ports s e)
            end)).
  { intros results. cbv zeta. destruct (filter is_open results); auto with steady. }
  unfold report.
  rewrite log_of_try_except by auto with steady.
  rewrite value_of_bind, log_of_bind by auto with steady.
  destruct (value_of (scan_ports w ip s e mt)) as [results|err] eqn:Hscan.
  - unfold report_lines. cbv zeta.
    destruct (filter is_open results) as [|o opens] eqn:Hopen.
    + rewrite value_of_print, log_of_print. now rewrite app_nil_r.
    + destruct (display_results_log (o :: opens)) as [Hv Hl].
      rewrite value_of_bind, log_of_bind by auto with steady.
      rewrite value_of_print, log_of_print, Hv, Hl, app_nil_r.
      rewrite <- Hopen, filter_idem. simpl. now rewrite map_map.
  - unfold is_Exception. rewrite log_of_print. now rewrite app_nil_r.
Qed.

Lemma main_log (w : world) (ip : string) (s e mt : Z) :
  log_of (main w ip s e mt) =
  if negb (ip_literal w ip) then [EvPrint (msg_invalid_ip ip)]
  else if range_invalid s e then [EvPrint msg_invalid_range]
  else EvPrint (msg_scanning ip s e)
         :: log_of (scan_ports w ip s e mt)
         ++ map EvPrint (report_lines ip s e (value_of (scan_ports w ip s e mt))).
Proof.
  unfold log_of at 1. rewrite main_run.
  destruct (negb (ip_literal w ip)); [reflexivity|].
  destruct (range_invalid s e); [reflexivity|].
  pose proof (steady_report w ip s e mt) as Hst.
  rewrite bind_run by auto with steady.
  rewrite value_of_print, log_of_print. simpl. now rewrite report_log.
Qed.

Lemma range_valid (s e : Z) :
  (1 <= s <= e)%Z -> (e <= 65535)%Z -> range_invalid s e = false.
Proof.
  intros Hse He. unfold range_invalid.
  destruct (Z.ltb_spec s 1); [lia|].
  destruct (Z.gtb_spec e 65535); [lia|].
  destruct (Z.gtb_spec s e); [lia | reflexivity].
Qed.

(** X12. The address is checked before the port range: when the address is
    invalid [main] prints the address message, also when the range is
    invalid too; the range message appears only for a valid address. In both
    cases this one line is all [main] does. *)
Theorem main_validation_message (w : world) (ip : string) (s e mt : Z) :
  ip_literal w ip = false \/ (s < 1)%Z \/ (e > 65535)%Z \/ (s > e)%Z ->
  log_of (main w ip s e mt)
  = [EvPrint (if ip_literal w ip then msg_invalid_range else msg_invalid_ip ip)].
Proof.
  intros H. rewrite main_log.
  destruct (ip_literal w ip) eqn:Hip; simpl negb; cbv iota; [|reflexivity].
  assert (Hr : range_invalid s e = true).
  { unfold range_invalid.
    destruct H as [H|[H|[H|H]]]; [discriminate| | |].
    - apply Z.ltb_lt in H. now rewrite H.
    - apply Z.gtb_gt in H. rewrite H. now rewrite orb_true_r.
    - apply Z.gtb_gt in H. rewrite H. now rewrite orb_true_r. }
  now rewrite Hr.
Qed.

Lemma main_validation_message_witness :
  (ip_literal Lab.world "999.999.999.999" = false \/ (0 < 1)%Z
   \/ (70000 > 65535)%Z \/ (0 > 70000)%Z) /\
  log_of (main Lab.world "999.999.999.999" 0 70000 100)
  = [EvPrint (if ip_literal Lab.world "999.999.999.999"
              then msg_invalid_range
              else msg_invalid_ip "999.999.999.999")].
Proof.
  assert (H : ip_literal Lab.world "999.999.999.999" = false \/ (0 < 1)%Z
              \/ (70000 > 65535)%Z \/ (0 > 70000)%Z)
    by (left; reflexivity).
  split; [exact H|].
  exact (main_validation_message Lab.world "999.999.999.999" 0 70000 100 H).
Defined.

(** X13. With a valid address and [1 <= start_port <= end_port <= 65535],
    both bounds included, [main] announces the scan, runs [scan_ports] once
    with the address, the range and the thread count it was given, and then
    only prints, at least one line. *)
Theorem main_runs_one_scan (w : world) (ip : string) (s e mt : Z) :
  ip_literal w ip = true -> (1 <= s <= e)%Z -> (e <= 65535)%Z ->
  exists lines,
    lines <> [] /\
    log_of (main w ip s e mt)
    = EvPrint (msg_scanning ip s e)
        :: log_of (scan_ports w ip s e mt) ++ map EvPrint lines.
Proof.
  intros Hip Hse He. rewrite main_log, Hip, (range_valid s e Hse He).
  simpl negb. cbv iota.
  exists (report_lines ip s e (value_of (scan_ports w ip s e mt))).
  split; [|reflexivity].
  unfold report_lines.
  destruct (value_of (scan_ports w ip s e mt)) as [results|err]; [|discriminate].
  destruct (filter is_open results); discriminate.
Qed.

Lemma main_runs_one_scan_witness :
  ip_literal Lab.world "127.0.0.1" = true /\ (1 <= 1 <= 65535)%Z /\
  (65535 <= 65535)%Z /\
  exists lines,
    lines <> [] /\
    log_of (main Lab.world "127.0.0.1" 1 65535 100)
    = EvPrint (msg_scanning "127.0.0.1" 1 65535)
        :: log_of (scan_ports Lab.world "127.0.0.1" 1 65535 100)
        ++ map EvPrint lines.
Proof.
  split; [reflexivity|]. split; [lia|]. split; [lia|].
  apply (main_runs_one_scan Lab.world "127.0.0.1" 1 65535 100);
    [reflexivity | lia | lia].
Defined.

Lemma filter_none {A} (f : A -> bool) (l : list A) :
  Forall (fun x => f x = false) l -> filter f l = [].
Proof.
  induction 1 as [|x l Hx Hl IH]; simpl; [reflexivity|].
  now rewrite Hx.
Qed.

(** X14. With valid arguments, when the scan returns and no port is 'Open',
    [main] prints the "no open ports" line for the range and no table. *)
Theorem main_no_open_ports (w : world) (ip : string) (s e mt : Z)
    (results : list outcome) :
  ip_literal w ip = true -> (1 <= s <= e)%Z -> (e <= 65535)%Z ->
  value_of (scan_ports w ip s e mt) = Return results ->
  Forall (fun o => snd o <> "Open") results ->
  printed (log_of (main w ip s e mt))
  = [msg_scanning ip s e; msg_no_open_ports s e].
Proof.
  intros Hip Hse He Hscan Hnone.
  destruct (main_printed w ip s e mt) as [_ ->].
  rewrite Hip, (range_valid s e Hse He), Hscan. simpl negb. cbv iota.
  unfold report_lines. rewrite filter_none; [reflexivity|].
  eapply Forall_impl; [|exact Hnone].
  intros o Ho. unfold is_open. now apply String.eqb_neq.
Qed.

Lemma main_no_open_ports_witness :
  ip_literal Lab.world "10.255.255.1" = true /\ (1 <= 7000 <= 7002)%Z /\
  (7002 <= 65535)%Z /\
  value_of (scan_ports Lab.world "10.255.255.1" 7000 7002 100)
  = Return [(7000%Z, "Closed"); (7001%Z, "Closed"); (7002%Z, "Closed")] /\
  Forall (fun o => snd o <> "Open")
    [(7000%Z, "Closed"); (7001%Z, "Closed"); (7002%Z, "Closed")] /\
  printed (log_of (main Lab.world "10.255.255.1" 7000 7002 100))
  = [msg_scanning "10.255.255.1" 7000 7002; msg_no_open_ports 7000 7002].
Proof.
  assert (Hnone : Forall (fun o : outcome => snd o <> "Open")
            [(7000%Z, "Closed"); (7001%Z, "Closed"); (7002%Z, "Closed")])
    by (repeat constructor; discriminate).
  split; [reflexivity|]. split; [lia|]. split; [lia|].
  split; [vm_compute; reflexivity|]. split; [exact Hnone|].
  apply (main_no_open_ports Lab.world "10.255.255.1" 7000 7002 100
           [(7000%Z, "Closed"); (7001%Z, "Closed"); (7002%Z, "Closed")]);
    [reflexivity | lia | lia | vm_compute; reflexivity | exact Hnone].
Defined.

(** X15. With valid arguments, an exception of the scan is not propagated:
    [main] prints "Error during scanning: " followed by the text of the
    exception, and neither a table nor the "no open ports" line. *)
Theorem main_reports_scan_exception (w : world) (ip : string) (s e mt : Z)
    (err : exn) :
  ip_literal w ip = true -> (1 <= s <= e)%Z -> (e <= 65535)%Z ->
  value_of (scan_ports w ip s e mt) = Raise err ->
  value_of (main w ip s e mt) = Return tt /\
  printed (log_of (main w ip s e mt))
  = [msg_scanning ip s e; "Error during scanning: " ^^ exn_str err].
Proof.
  intros Hip Hse He Hscan.
  destruct (main_printed w ip s e mt) as [Hv ->].
  split; [exact Hv|].
  rewrite Hip, (range_valid s e Hse He), Hscan. reflexivity.
Qed.

Lemma main_reports_scan_exception_witness :
  ip_literal Lab.world "127.0.0.1" = true /\ (1 <= 7000 <= 7002)%Z /\
  (7002 <= 65535)%Z /\
  value_of (scan_ports Lab.world "127.0.0.1" 7000 7002 (-1))
  = Raise (Exn ValueError "max_workers must be greater than 0") /\
  value_of (main Lab.world "127.0.0.1" 7000 7002 (-1)) = Return tt /\
  printed (log_of (main Lab.world "127.0.0.1" 7000 7002 (-1)))
  = [msg_scanning "127.0.0.1" 7000 7002;
     "Error during scanning: "
     ^^ exn_str (Exn ValueError "max_workers must be greater than 0")].
Proof.
  split; [reflexivity|]. split; [lia|]. split; [lia|]. split; [reflexivity|].
  apply (main_reports_scan_exception Lab.world "127.0.0.1" 7000 7002 (-1));
    [reflexivity | lia | lia | reflexivity].
Defined.

(** ** The layout of the table *)

Lemma all_from_spec (test : Z -> bool) (n : nat) :
  forall a, all_from test n a = true ->
            forall p, (a <= p < a + Z.of_nat n)%Z -> test p = true.
Proof.
  induction n as [|n IH]; intros a H p Hp; [lia|].
  simpl in H. apply andb_true_iff in H as [Ha Hrest].
  destruct (Z.eq_dec p a) as [->|Hne]; [exact Ha|].
  apply (IH (a + 1)%Z Hrest). lia.
Qed.

Lemma valid_ports_rows_checked :
  all_from (fun p => (String.length (table_row p "Open") =? 21)%nat)
           (Z.to_nat 65535) 1 = true.
Proof. vm_compute. reflexivity. Qed.

(** X16. The table stays aligned for every valid port: a row for a port
    between 1 and 65535 is 21 characters wide, like the header (two columns
    of 10 and a space); the rule under the header is 20 dashes. *)
Theorem table_rows_aligned (port : Z) :
  (1 <= port <= 65535)%Z ->
  String.length (table_row port "Open") = String.length table_header /\
  String.length table_header = 21%nat /\
  String.length table_rule = 20%nat.
Proof.
  intros Hport. split; [|split; reflexivity].
  change (String.length table_header) with 21%nat.
  apply Nat.eqb_eq.
  apply (all_from_spec _ _ _ valid_ports_rows_checked). lia.
Qed.

Lemma table_rows_aligned_witness :
  (1 <= 65535 <= 65535)%Z /\
  String.length (table_row 65535 "Open") = String.length table_header /\
  String.length table_header = 21%nat /\
  String.length table_rule = 20%nat.
Proof.
  split; [lia|]. apply (table_rows_aligned 65535). lia.
Defined.
